(** * BICGSTAB on CSR matrices: a shallow embedding and its properties

    The development follows the C sources of the solver:
    - [fem_matrix.h] / [fem_matrix.c]: the CSR matrix, the assembly of the
      finite-element system and the serial matrix-vector product;
    - [bicgstab_serial.c]: the serial vector kernels and [bicgstab_serial];
    - [bicgstab_parallel.c]: the OpenMP kernels and [bicgstab_parallel];
    - [main.c]: [verify_solution] and [run_benchmark].

    C [double] is an abstract arithmetic ([Arith]) with two instances: IEEE
    binary64 (primitive floats, which evaluate) and the real numbers (exact
    arithmetic).  C [int] is [Z]: the loop counter of the solver stays
    between 0 and [max_iter], so it never wraps around, and the assembly is
    read on grids whose [5 * nx * ny] fits an [int].  An array is a list, read
    and written by index; a function that writes through a pointer takes the
    content of that buffer and returns its new content. *)

From Stdlib Require Import ZArith Reals Lra Lia Floats.
From stdpp Require Import base tactics list list_numbers.

Local Open Scope Z_scope.

(** ** The arithmetic of [double] *)

Class Arith (D : Type) := {
  d_zero : D;                (* 0.0 *)
  d_one : D;                (* 1.0 *)
  d_tiny : D;                (* 1e-30 *)
  dadd : D → D → D;
  dsub : D → D → D;
  dmul : D → D → D;
  ddiv : D → D → D;
  dneg : D → D;
  dsqrt : D → D;            (* sqrt  *)
  dfabs : D → D;            (* fabs  *)
  dlt : D → D → bool;       (* <     *)
  deq : D → D → bool;       (* ==    *)
  d_of_int : Z → D              (* conversion of an int to double *)
}.

Declare Scope dbl_scope.
Delimit Scope dbl_scope with D.
Infix "+" := dadd : dbl_scope.
Infix "-" := dsub : dbl_scope.
Infix "*" := dmul : dbl_scope.
Infix "/" := ddiv : dbl_scope.
Notation "- x" := (dneg x) : dbl_scope.

(** IEEE binary64 with every operation rounded to nearest even.  (A compiler
    that contracts [a * b + c] into a fused multiply-add rounds once where
    this arithmetic rounds twice; the example systems below are computed
    without rounding up to the comparisons with [tol], so they do not depend
    on it.) *)
Definition float_of_int (z : Z) : float :=
  if z <? 0 then PrimFloat.opp (PrimFloat.of_uint63 (Uint63.of_Z (- z)))
  else PrimFloat.of_uint63 (Uint63.of_Z z).

#[export] Instance float_arith : Arith float := {|
  d_zero := 0%float; d_one := 1%float; d_tiny := 0x1.4484bfeebc2ap-100%float;
  dadd := PrimFloat.add; dsub := PrimFloat.sub; dmul := PrimFloat.mul;
  ddiv := PrimFloat.div; dneg := PrimFloat.opp; dsqrt := PrimFloat.sqrt;
  dfabs := PrimFloat.abs; dlt := PrimFloat.ltb; deq := PrimFloat.eqb;
  d_of_int := float_of_int |}.

(** Exact arithmetic on the reals. *)
Definition Rltb (x y : R) : bool := if Rlt_dec x y then true else false.
Definition Reqb (x y : R) : bool := if Req_dec_T x y then true else false.

#[export] Instance real_arith : Arith R := {|
  d_zero := 0%R; d_one := 1%R; d_tiny := (/ 10 ^ 30)%R;
  dadd := Rplus; dsub := Rminus; dmul := Rmult; ddiv := Rdiv; dneg := Ropp;
  dsqrt := R_sqrt.sqrt; dfabs := Rabs; dlt := Rltb; deq := Reqb;
  d_of_int := IZR |}.

(** ** Arrays *)

Section arrays.
Context {T : Type} `{!Inhabited T}.

(** [a[i]]; a read outside the buffer is undefined in C and gives the
    default element here. *)
Definition rd (a : list T) (i : Z) : T :=
  if decide (0 ≤ i) then a !!! Z.to_nat i else inhabitant.

(** [a[i] = v]; a write outside the buffer is undefined in C and is not
    performed here. *)
Definition wr (a : list T) (i : Z) (v : T) : list T :=
  if decide (0 ≤ i) then <[Z.to_nat i := v]> a else a.
End arrays.

(** ** fem_matrix.h *)

Record CSRMatrix (D : Type) := {
  csr_n : Z;
  csr_nnz : Z;
  csr_values : list D;
  csr_col_idx : list Z;
  csr_row_ptr : list Z
}.
Arguments csr_n {D}. Arguments csr_nnz {D}. Arguments csr_values {D}.
Arguments csr_col_idx {D}. Arguments csr_row_ptr {D}.

Record FEMSystem (D : Type) := {
  sys_A : CSRMatrix D;
  sys_b : list D;
  sys_x : list D;
  sys_n : Z
}.
Arguments sys_A {D}. Arguments sys_b {D}. Arguments sys_x {D}. Arguments sys_n {D}.

Section kernels.
Context {D : Type} `{!Arith D}.

#[export] Instance dbl_inhabited : Inhabited D := populate d_zero.

(** ** fem_matrix.c: [matvec_csr] *)

(** The inner loop of [matvec_csr]: [y[i] += values[j] * x[col_idx[j]]]
    for [j] from [row_ptr[i]] up to [row_ptr[i+1]]. *)
Definition matvec_row (A : CSRMatrix D) (x : list D) (i : Z) (y : list D) : list D :=
  foldl (λ y j, wr y i (rd y i + rd (csr_values A) j * rd x (rd (csr_col_idx A) j))%D)
        (wr y i d_zero)
        (seqZ (rd (csr_row_ptr A) i) (rd (csr_row_ptr A) (i + 1) - rd (csr_row_ptr A) i)).

Definition matvec_csr (A : CSRMatrix D) (x y : list D) : list D :=
  foldl (λ y i, matvec_row A x i y) y (seqZ 0 (csr_n A)).

(** ** bicgstab_serial.c: vector kernels *)

Definition dot_product (a b : list D) (n : Z) : D :=
  foldl (λ sum i, sum + rd a i * rd b i)%D d_zero (seqZ 0 n).

Definition vector_copy (src dst : list D) (n : Z) : list D :=
  foldl (λ dst i, wr dst i (rd src i)) dst (seqZ 0 n).

Definition vector_axpy (a : D) (x y : list D) (n : Z) : list D :=
  foldl (λ y i, wr y i (rd y i + a * rd x i)%D) y (seqZ 0 n).

Definition vector_axpby (a : D) (x : list D) (b : D) (y z : list D) (n : Z) : list D :=
  foldl (λ z i, wr z i (a * rd x i + b * rd y i)%D) z (seqZ 0 n).

Definition vector_norm (x : list D) (n : Z) : D :=
  dsqrt (dot_product x x n).

(** [malloc(n * sizeof(double))]: a fresh buffer of [n] cells.  Its content
    is indeterminate in C; the solver writes every scratch buffer before it
    reads it. *)
Definition malloc (n : Z) : list D := replicate (Z.to_nat n) d_zero.

(** [for (i = 0; i < n; i++) r0[i] = 1.0;] *)
Definition fill_ones (r0 : list D) (n : Z) : list D :=
  foldl (λ r0 i, wr r0 i d_one) r0 (seqZ 0 n).

(** [for (i = 0; i < n; i++) p[i] = r[i] + beta * (p[i] - omega * v[i]);] *)
Definition update_p (r : list D) (beta omega : D) (v p : list D) (n : Z) : list D :=
  foldl (λ p i, wr p i (rd r i + beta * (rd p i - omega * rd v i))%D) p (seqZ 0 n).

(** ** bicgstab_serial.c: the solver *)

(** The variables of [bicgstab_serial] that live across iterations: the
    solution [x] of the system, the six working vectors and the scalars. *)
Record Work := {
  w_x : list D;
  w_r : list D; w_r0 : list D; w_p : list D;
  w_v : list D; w_s : list D; w_t : list D;
  w_rho : D; w_alpha : D; w_omega : D
}.

(** One pass through the loop body either falls through to [iter++]
    ([Next]) or leaves the loop by [break] with the value [iter] has at
    that point ([Break]). *)
Inductive Step :=
| Next (w : Work)
| Break (iter : Z) (w : Work).

(** Everything before the loop, [bnorm] apart. *)
Definition serial_init (sys : FEMSystem D) : Work :=
  let n := sys_n sys in
  let r := vector_copy (sys_b sys) (malloc n) n in
  let r0 := fill_ones (malloc n) n in
  let p := vector_copy r (malloc n) n in
  {| w_x := sys_x sys; w_r := r; w_r0 := r0; w_p := p;
     w_v := malloc n; w_s := malloc n; w_t := malloc n;
     w_rho := d_one; w_alpha := d_one; w_omega := d_one |}.

Definition serial_bnorm (sys : FEMSystem D) : D :=
  let bnorm := vector_norm (sys_b sys) (sys_n sys) in
  if deq bnorm d_zero then d_one else bnorm.

(** The loop body at loop index [iter]. *)
Definition serial_body (A : CSRMatrix D) (n : Z) (bnorm tol : D)
    (iter : Z) (w : Work) : Step :=
  let rho_prev := w_rho w in
  let rho := dot_product (w_r0 w) (w_r w) n in
  if dlt (dfabs rho) d_tiny then
    Break iter {| w_x := w_x w; w_r := w_r w; w_r0 := w_r0 w; w_p := w_p w;
                  w_v := w_v w; w_s := w_s w; w_t := w_t w;
                  w_rho := rho; w_alpha := w_alpha w; w_omega := w_omega w |}
  else
    let p := if iter =? 0 then vector_copy (w_r w) (w_p w) n
             else let beta := ((rho / rho_prev) * (w_alpha w / w_omega w))%D in
                  update_p (w_r w) beta (w_omega w) (w_v w) (w_p w) n in
    let v := matvec_csr A p (w_v w) in
    let alpha := (rho / dot_product (w_r0 w) v n)%D in
    let s := vector_axpby d_one (w_r w) (- alpha)%D v (w_s w) n in
    let s_norm := vector_norm s n in
    if dlt (s_norm / bnorm)%D tol then
      Break iter {| w_x := vector_axpy alpha p (w_x w) n;
                    w_r := w_r w; w_r0 := w_r0 w; w_p := p;
                    w_v := v; w_s := s; w_t := w_t w;
                    w_rho := rho; w_alpha := alpha; w_omega := w_omega w |}
    else
      let t := matvec_csr A s (w_t w) in
      let omega := (dot_product t s n / dot_product t t n)%D in
      let x := vector_axpy omega s (vector_axpy alpha p (w_x w) n) n in
      let r := vector_axpby d_one s (- omega)%D t (w_r w) n in
      let r_norm := vector_norm r n in
      let w' := {| w_x := x; w_r := r; w_r0 := w_r0 w; w_p := p;
                   w_v := v; w_s := s; w_t := t;
                   w_rho := rho; w_alpha := alpha; w_omega := omega |} in
      if dlt (r_norm / bnorm)%D tol then Break (iter + 1) w'
      else if dlt (dfabs omega) d_tiny then Break iter w'
      else Next w'.

(** [for (iter = 0; iter < max_iter; iter++) body]: [todo] is the number of
    iterations left, [max_iter - iter].  The result is the value of [iter]
    when the loop is left, with the variables at that point. *)
Fixpoint serial_loop (A : CSRMatrix D) (n : Z) (bnorm tol : D)
    (todo : nat) (iter : Z) (w : Work) : Z * Work :=
  match todo with
  | O => (iter, w)
  | S todo' =>
      match serial_body A n bnorm tol iter w with
      | Break iter' w' => (iter', w')
      | Next w' => serial_loop A n bnorm tol todo' (iter + 1) w'
      end
  end.

(** The value returned for "failed". *)
Definition failure_sentinel : Z := -1.

(** [if (iter >= max_iter) return -1; return iter;] *)
Definition solver_result (iter max_iter : Z) : Z :=
  if max_iter <=? iter then failure_sentinel else iter.

(** [bicgstab_serial]: the returned [int] and the system as the call leaves
    it.  The measured [solve_time] is not modelled. *)
Definition bicgstab_serial (sys : FEMSystem D) (max_iter : Z) (tol : D)
    : Z * FEMSystem D :=
  let '(iter, w) :=
    serial_loop (sys_A sys) (sys_n sys) (serial_bnorm sys) tol
                (Z.to_nat max_iter) 0 (serial_init sys) in
  (solver_result iter max_iter,
   {| sys_A := sys_A sys; sys_b := sys_b sys; sys_x := w_x w; sys_n := sys_n sys |}).

(** ** bicgstab_parallel.c: the OpenMP kernels *)

(** The OpenMP runtime, once [omp_set_num_threads] has fixed the number of
    threads, splits the [n] iterations of a [parallel for] among the
    threads: a team gives, for a trip count [n], the iterations each thread
    runs, thread by thread.  OpenMP leaves the split and the order in which
    a reduction combines the threads' partial results unspecified, so the
    team is a parameter of every kernel. *)
Definition Team := Z → list (list Z).

(** [#pragma omp parallel for] over iterations that write distinct cells
    and read no cell another iteration writes: the effect is that of the
    iterations run thread after thread. *)
Definition omp_parallel_for {S : Type} (team : Team) (n : Z) (body : S → Z → S) (s : S) : S :=
  foldl body s (concat (team n)).

(** [reduction(+:sum)]: each thread accumulates into a private copy of
    [sum] that starts at zero; the private copies are then added to the
    original [sum]. *)
Definition omp_reduce_plus (team : Team) (n : Z) (term : Z → D) (sum : D) : D :=
  foldl dadd sum ((λ its, foldl (λ sum i, sum + term i)%D d_zero its) <$> team n).

Definition dot_product_parallel (team : Team) (a b : list D) (n : Z) : D :=
  omp_reduce_plus team n (λ i, rd a i * rd b i)%D d_zero.

Definition vector_copy_parallel (team : Team) (src dst : list D) (n : Z) : list D :=
  omp_parallel_for team n (λ dst i, wr dst i (rd src i)) dst.

Definition vector_axpy_parallel (team : Team) (a : D) (x y : list D) (n : Z) : list D :=
  omp_parallel_for team n (λ y i, wr y i (rd y i + a * rd x i)%D) y.

Definition vector_axpby_parallel (team : Team) (a : D) (x : list D) (b : D)
    (y z : list D) (n : Z) : list D :=
  omp_parallel_for team n (λ z i, wr z i (a * rd x i + b * rd y i)%D) z.

Definition vector_norm_parallel (team : Team) (x : list D) (n : Z) : D :=
  dsqrt (dot_product_parallel team x x n).

(** The row sum of [matvec_csr_parallel], accumulated in the local [sum]. *)
Definition row_sum (A : CSRMatrix D) (x : list D) (i : Z) : D :=
  foldl (λ sum j, sum + rd (csr_values A) j * rd x (rd (csr_col_idx A) j))%D
        d_zero
        (seqZ (rd (csr_row_ptr A) i) (rd (csr_row_ptr A) (i + 1) - rd (csr_row_ptr A) i)).

Definition matvec_csr_parallel (team : Team) (A : CSRMatrix D) (x y : list D) : list D :=
  omp_parallel_for team (csr_n A) (λ y i, wr y i (row_sum A x i)) y.

Definition fill_ones_parallel (team : Team) (r0 : list D) (n : Z) : list D :=
  omp_parallel_for team n (λ r0 i, wr r0 i d_one) r0.

Definition update_p_parallel (team : Team) (r : list D) (beta omega : D)
    (v p : list D) (n : Z) : list D :=
  omp_parallel_for team n
    (λ p i, wr p i (rd r i + beta * (rd p i - omega * rd v i))%D) p.

(** ** bicgstab_parallel.c: the solver *)

Definition parallel_init (team : Team) (sys : FEMSystem D) : Work :=
  let n := sys_n sys in
  let r := vector_copy_parallel team (sys_b sys) (malloc n) n in
  let r0 := fill_ones_parallel team (malloc n) n in
  let p := vector_copy_parallel team r (malloc n) n in
  {| w_x := sys_x sys; w_r := r; w_r0 := r0; w_p := p;
     w_v := malloc n; w_s := malloc n; w_t := malloc n;
     w_rho := d_one; w_alpha := d_one; w_omega := d_one |}.

Definition parallel_bnorm (team : Team) (sys : FEMSystem D) : D :=
  let bnorm := vector_norm_parallel team (sys_b sys) (sys_n sys) in
  if deq bnorm d_zero then d_one else bnorm.

Definition parallel_body (team : Team) (A : CSRMatrix D) (n : Z) (bnorm tol : D)
    (iter : Z) (w : Work) : Step :=
  let rho_prev := w_rho w in
  let rho := dot_product_parallel team (w_r0 w) (w_r w) n in
  if dlt (dfabs rho) d_tiny then
    Break iter {| w_x := w_x w; w_r := w_r w; w_r0 := w_r0 w; w_p := w_p w;
                  w_v := w_v w; w_s := w_s w; w_t := w_t w;
                  w_rho := rho; w_alpha := w_alpha w; w_omega := w_omega w |}
  else
    let p := if iter =? 0 then vector_copy_parallel team (w_r w) (w_p w) n
             else let beta := ((rho / rho_prev) * (w_alpha w / w_omega w))%D in
                  update_p_parallel team (w_r w) beta (w_omega w) (w_v w) (w_p w) n in
    let v := matvec_csr_parallel team A p (w_v w) in
    let alpha := (rho / dot_product_parallel team (w_r0 w) v n)%D in
    let s := vector_axpby_parallel team d_one (w_r w) (- alpha)%D v (w_s w) n in
    let s_norm := vector_norm_parallel team s n in
    if dlt (s_norm / bnorm)%D tol then
      Break iter {| w_x := vector_axpy_parallel team alpha p (w_x w) n;
                    w_r := w_r w; w_r0 := w_r0 w; w_p := p;
                    w_v := v; w_s := s; w_t := w_t w;
                    w_rho := rho; w_alpha := alpha; w_omega := w_omega w |}
    else
      let t := matvec_csr_parallel team A s (w_t w) in
      let omega := (dot_product_parallel team t s n / dot_product_parallel team t t n)%D in
      let x := vector_axpy_parallel team omega s
                 (vector_axpy_parallel team alpha p (w_x w) n) n in
      let r := vector_axpby_parallel team d_one s (- omega)%D t (w_r w) n in
      let r_norm := vector_norm_parallel team r n in
      let w' := {| w_x := x; w_r := r; w_r0 := w_r0 w; w_p := p;
                   w_v := v; w_s := s; w_t := t;
                   w_rho := rho; w_alpha := alpha; w_omega := omega |} in
      if dlt (r_norm / bnorm)%D tol then Break (iter + 1) w'
      else if dlt (dfabs omega) d_tiny then Break iter w'
      else Next w'.

Fixpoint parallel_loop (team : Team) (A : CSRMatrix D) (n : Z) (bnorm tol : D)
    (todo : nat) (iter : Z) (w : Work) : Z * Work :=
  match todo with
  | O => (iter, w)
  | S todo' =>
      match parallel_body team A n bnorm tol iter w with
      | Break iter' w' => (iter', w')
      | Next w' => parallel_loop team A n bnorm tol todo' (iter + 1) w'
      end
  end.

(** [bicgstab_parallel]: [omp] is the OpenMP runtime, which gives the team
    that [omp_set_num_threads(num_threads)] selects. *)
Definition bicgstab_parallel (omp : Z → Team) (sys : FEMSystem D) (max_iter : Z)
    (tol : D) (num_threads : Z) : Z * FEMSystem D :=
  let team := omp num_threads in
  let '(iter, w) :=
    parallel_loop team (sys_A sys) (sys_n sys) (parallel_bnorm team sys) tol
                  (Z.to_nat max_iter) 0 (parallel_init team sys) in
  (solver_result iter max_iter,
   {| sys_A := sys_A sys; sys_b := sys_b sys; sys_x := w_x w; sys_n := sys_n sys |}).

(** ** fem_matrix.c: [create_fem_system] *)

Definition get_node_number (i j nx : Z) : Z := i * nx + j.

Definition get_boundary_type (i j nx ny : Z) : Z :=
  if j =? 0 then 1
  else if i =? ny - 1 then 2
  else if j =? nx - 1 then 3
  else if i =? 0 then 4
  else 0.

(** The arrays under construction and the running [nnz_count]. *)
Record Assembly := {
  temp_values : list D;
  temp_col : list Z;
  temp_row : list Z;
  asm_b : list D;
  nnz_count : Z
}.

(** [temp_values[nnz_count] = val; temp_col[nnz_count] = col; nnz_count++;] *)
Definition push_entry (val : D) (col : Z) (a : Assembly) : Assembly :=
  {| temp_values := wr (temp_values a) (nnz_count a) val;
     temp_col := wr (temp_col a) (nnz_count a) col;
     temp_row := temp_row a;
     asm_b := asm_b a;
     nnz_count := nnz_count a + 1 |}.

(** [sys->b[node] = val;] *)
Definition set_rhs (node : Z) (val : D) (a : Assembly) : Assembly :=
  {| temp_values := temp_values a; temp_col := temp_col a; temp_row := temp_row a;
     asm_b := wr (asm_b a) node val; nnz_count := nnz_count a |}.

(** [temp_row[node + 1] = nnz_count;] *)
Definition close_row (node : Z) (a : Assembly) : Assembly :=
  {| temp_values := temp_values a; temp_col := temp_col a;
     temp_row := wr (temp_row a) (node + 1) (nnz_count a);
     asm_b := asm_b a; nnz_count := nnz_count a |}.

(** The body of the double loop over the grid, at node [(i, j)]. *)
Definition assemble_node (nx ny : Z) (ke kn kw : D) (i j : Z) (a : Assembly) : Assembly :=
  let node := get_node_number i j nx in
  let boundary := get_boundary_type i j nx ny in
  let a :=
    if 0 <? boundary then
      let a := push_entry d_one node a in
      if boundary =? 3 then set_rhs node d_one a else set_rhs node d_zero a
    else
      let a := if 0 <? j then push_entry kw (get_node_number i (j - 1) nx) a else a in
      let a := if 0 <? i then push_entry kn (get_node_number (i - 1) j nx) a else a in
      let a := push_entry ke node a in
      let a := if i <? ny - 1 then push_entry kn (get_node_number (i + 1) j nx) a else a in
      let a := if j <? nx - 1 then push_entry kw (get_node_number i (j + 1) nx) a else a in
      set_rhs node d_zero a in
  close_row node a.

(** [for (i = 0; i < n; i++) dst[i] = src[i];] on either element type. *)
Definition copy_prefix {T : Type} `{!Inhabited T} (src dst : list T) (n : Z) : list T :=
  foldl (λ dst i, wr dst i (rd src i)) dst (seqZ 0 n).

(** The grid spacings and the entries of the element stiffness matrix. *)
Definition grid_hx (nx : Z) : D := (d_one / d_of_int (nx - 1))%D.
Definition grid_hy (ny : Z) : D := (d_one / d_of_int (ny - 1))%D.
Definition stiffness_ke (nx ny : Z) : D :=
  ((grid_hy ny / grid_hx nx + grid_hx nx / grid_hy ny) / d_of_int 3)%D.
Definition stiffness_kn (nx ny : Z) : D :=
  (- (grid_hy ny / grid_hx nx) / d_of_int 6)%D.
Definition stiffness_kw (nx ny : Z) : D :=
  (- (grid_hx nx / grid_hy ny) / d_of_int 6)%D.

(** The temporary arrays as [calloc] gives them, after [temp_row[0] = 0]. *)
Definition assembly_start (nx ny : Z) : Assembly :=
  let n := nx * ny in
  let max_nnz := 5 * n in
  {| temp_values := replicate (Z.to_nat max_nnz) d_zero;
     temp_col := replicate (Z.to_nat max_nnz) 0;
     temp_row := wr (replicate (Z.to_nat (n + 1)) 0) 0 0;
     asm_b := replicate (Z.to_nat n) d_zero;
     nnz_count := 0 |}.

(** The inner loop, over [j], of the loop over all nodes. *)
Definition assemble_grid_row (nx ny : Z) (i : Z) (a : Assembly) : Assembly :=
  foldl (λ a j, assemble_node nx ny (stiffness_ke nx ny) (stiffness_kn nx ny)
                              (stiffness_kw nx ny) i j a)
        a (seqZ 0 nx).

(** The loop over all nodes. *)
Definition assemble (nx ny : Z) : Assembly :=
  foldl (λ a i, assemble_grid_row nx ny i a) (assembly_start nx ny) (seqZ 0 ny).

Definition create_fem_system (nx ny : Z) : FEMSystem D :=
  let n := nx * ny in
  let a := assemble nx ny in
  {| sys_A := {| csr_n := n;
                 csr_nnz := nnz_count a;
                 csr_values := copy_prefix (temp_values a) (malloc (nnz_count a)) (nnz_count a);
                 csr_col_idx := copy_prefix (temp_col a)
                                  (replicate (Z.to_nat (nnz_count a)) 0) (nnz_count a);
                 csr_row_ptr := copy_prefix (temp_row a)
                                  (replicate (Z.to_nat (n + 1)) 0) (n + 1) |};
     sys_b := asm_b a;
     sys_x := replicate (Z.to_nat n) d_zero;
     sys_n := n |}.

(** ** The CSR invariant *)

(** [row_ptr] has [n + 1] offsets that start at 0, never decrease and end at
    [nnz]; [col_idx] and [values] have [nnz] cells; every column index is a
    row number. *)
Definition csr_invariant (A : CSRMatrix D) : Prop :=
  length (csr_row_ptr A) = Z.to_nat (csr_n A + 1)
  ∧ length (csr_col_idx A) = Z.to_nat (csr_nnz A)
  ∧ length (csr_values A) = Z.to_nat (csr_nnz A)
  ∧ rd (csr_row_ptr A) 0 = 0
  ∧ (∀ i, 0 ≤ i < csr_n A → rd (csr_row_ptr A) i ≤ rd (csr_row_ptr A) (i + 1))
  ∧ rd (csr_row_ptr A) (csr_n A) = csr_nnz A
  ∧ (∀ j, 0 ≤ j < csr_nnz A → 0 ≤ rd (csr_col_idx A) j < csr_n A).

(** The cells of [a] from index [lo] up to [hi]. *)
Definition slice {T : Type} (a : list T) (lo hi : Z) : list T :=
  take (Z.to_nat (hi - lo)) (drop (Z.to_nat lo) a).

(** What the index range [[row_ptr[i], row_ptr[i+1])] holds: the column and
    the value of each entry, in storage order. *)
Definition csr_row (A : CSRMatrix D) (i : Z) : list (Z * D) :=
  zip (slice (csr_col_idx A) (rd (csr_row_ptr A) i) (rd (csr_row_ptr A) (i + 1)))
      (slice (csr_values A) (rd (csr_row_ptr A) i) (rd (csr_row_ptr A) (i + 1))).

(** The entries [assemble_node] stores for node [(i, j)], in the order in
    which it stores them. *)
Definition node_entries (nx ny : Z) (ke kn kw : D) (i j : Z) : list (Z * D) :=
  let node := get_node_number i j nx in
  if 0 <? get_boundary_type i j nx ny then [(node, d_one)]
  else
    (if 0 <? j then [(get_node_number i (j - 1) nx, kw)] else [])
    ++ (if 0 <? i then [(get_node_number (i - 1) j nx, kn)] else [])
    ++ [(node, ke)]
    ++ (if i <? ny - 1 then [(get_node_number (i + 1) j nx, kn)] else [])
    ++ (if j <? nx - 1 then [(get_node_number i (j + 1) nx, kw)] else []).

(** The right-hand side [assemble_node] stores for node [(i, j)]. *)
Definition node_rhs (nx ny : Z) (i j : Z) : D :=
  if 0 <? get_boundary_type i j nx ny
  then if get_boundary_type i j nx ny =? 3 then d_one else d_zero
  else d_zero.

(** Storing a list of entries one after the other. *)
Definition push_entries (es : list (Z * D)) (a : Assembly) : Assembly :=
  foldl (λ a e, push_entry e.2 e.1 a) a es.

(** What holds of the temporary arrays when the nodes before node number [k]
    have been assembled. *)
Definition assembly_invariant (nx ny : Z) (ke kn kw : D) (k : Z) (a : Assembly) : Prop :=
  (length (temp_values a) = Z.to_nat (5 * (nx * ny))
   ∧ length (temp_col a) = Z.to_nat (5 * (nx * ny))
   ∧ length (temp_row a) = Z.to_nat (nx * ny + 1))
  ∧ k ≤ nnz_count a ≤ 5 * k
  ∧ rd (temp_row a) 0 = 0
  ∧ rd (temp_row a) k = nnz_count a
  ∧ (∀ m, 0 ≤ m < k →
       0 ≤ rd (temp_row a) m ≤ rd (temp_row a) (m + 1)
       ∧ rd (temp_row a) (m + 1) ≤ nnz_count a)
  ∧ (∀ q, 0 ≤ q < nnz_count a → 0 ≤ rd (temp_col a) q < nx * ny)
  ∧ (∀ i j, 0 ≤ i → 0 ≤ j < nx → i * nx + j < k →
       rd (temp_row a) (i * nx + j + 1)
       = rd (temp_row a) (i * nx + j) + Z.of_nat (length (node_entries nx ny ke kn kw i j))
       ∧ ∀ t, 0 ≤ t < Z.of_nat (length (node_entries nx ny ke kn kw i j)) →
           (rd (temp_col a) (rd (temp_row a) (i * nx + j) + t),
            rd (temp_values a) (rd (temp_row a) (i * nx + j) + t))
           = rd (node_entries nx ny ke kn kw i j) t).
End kernels.

Arguments Work : clear implicits.
Arguments Step : clear implicits.
Arguments Assembly : clear implicits.

(** ** Observing the loop *)

Section observations.
Context {D : Type} `{!Arith D}.

(** The values the loop body computes at loop index [iter] from the
    variables [w], up to the first convergence check. *)
Definition body_rho (n : Z) (w : Work D) : D :=
  dot_product (w_r0 w) (w_r w) n.

Definition body_p (n iter : Z) (w : Work D) : list D :=
  if iter =? 0 then vector_copy (w_r w) (w_p w) n
  else update_p (w_r w) ((body_rho n w / w_rho w) * (w_alpha w / w_omega w))%D
                (w_omega w) (w_v w) (w_p w) n.

Definition body_v (A : CSRMatrix D) (n iter : Z) (w : Work D) : list D :=
  matvec_csr A (body_p n iter w) (w_v w).

Definition body_alpha (A : CSRMatrix D) (n iter : Z) (w : Work D) : D :=
  (body_rho n w / dot_product (w_r0 w) (body_v A n iter w) n)%D.

Definition body_s (A : CSRMatrix D) (n iter : Z) (w : Work D) : list D :=
  vector_axpby d_one (w_r w) (- body_alpha A n iter w)%D (body_v A n iter w) (w_s w) n.

(** [fabs(rho) < 1e-30] *)
Definition rho_breakdown (n : Z) (w : Work D) : bool :=
  dlt (dfabs (body_rho n w)) d_tiny.

(** [s_norm / bnorm < tol] *)
Definition first_check (A : CSRMatrix D) (n : Z) (bnorm tol : D) (iter : Z) (w : Work D) : bool :=
  dlt (vector_norm (body_s A n iter w) n / bnorm)%D tol.

(** The second half of the body: [t], [omega] and the new residual. *)
Definition body_t (A : CSRMatrix D) (n iter : Z) (w : Work D) : list D :=
  matvec_csr A (body_s A n iter w) (w_t w).

Definition body_omega (A : CSRMatrix D) (n iter : Z) (w : Work D) : D :=
  (dot_product (body_t A n iter w) (body_s A n iter w) n
   / dot_product (body_t A n iter w) (body_t A n iter w) n)%D.

Definition body_r (A : CSRMatrix D) (n iter : Z) (w : Work D) : list D :=
  vector_axpby d_one (body_s A n iter w) (- body_omega A n iter w)%D
               (body_t A n iter w) (w_r w) n.

(** [r_norm / bnorm < tol] *)
Definition second_check (A : CSRMatrix D) (n : Z) (bnorm tol : D) (iter : Z) (w : Work D) : bool :=
  dlt (vector_norm (body_r A n iter w) n / bnorm)%D tol.

(** The variables with which the serial loop starts its pass at loop index
    [k], when the [k] passes before it all fell through to [iter++]. *)
Fixpoint serial_reach (A : CSRMatrix D) (n : Z) (bnorm tol : D) (k : nat) (w0 : Work D)
    : option (Work D) :=
  match k with
  | O => Some w0
  | S k' =>
      match serial_reach A n bnorm tol k' w0 with
      | Some w =>
          match serial_body A n bnorm tol (Z.of_nat k') w with
          | Next w' => Some w'
          | Break _ _ => None
          end
      | None => None
      end
  end.

(** The same for a call of [bicgstab_serial]. *)
Definition serial_at (sys : FEMSystem D) (tol : D) (k : nat) : option (Work D) :=
  serial_reach (sys_A sys) (sys_n sys) (serial_bnorm sys) tol k (serial_init sys).

(** The system a solve leaves behind: [sys] with [x] in place of its
    solution vector. *)
Definition with_x (sys : FEMSystem D) (x : list D) : FEMSystem D :=
  {| sys_A := sys_A sys; sys_b := sys_b sys; sys_x := x; sys_n := sys_n sys |}.
End observations.

(** ** Laws of the arithmetic *)

(** What the solver needs of zero: the facts on [0.0], [1.0] and [1e-30] that
    decide the run on a zero right-hand side.  They hold in binary64 and in
    the reals. *)
Class ZeroLaws (D : Type) `{!Arith D} : Prop := {
  zero_plus_one_times_zero : (d_zero + d_one * d_zero)%D = d_zero;
  zero_plus_zero_times_zero : (d_zero + d_zero * d_zero)%D = d_zero;
  sqrt_zero_equals_zero : deq (dsqrt d_zero) d_zero = true;
  zero_below_tiny : dlt (dfabs d_zero) d_tiny = true
}.

(** Multiplying by [1.0] changes nothing.  This holds in binary64 and in the
    reals. *)
Class OneNeutral (D : Type) `{!Arith D} : Prop := {
  mul_one_l : ∀ x : D, (d_one * x)%D = x
}.

(** Exact addition: a sum does not depend on the order of its terms, and
    [0] is neutral.  The reals satisfy these laws; binary64 does not (its
    addition is not associative, and [0.0 + (-0.0)] is [+0.0]). *)
Class ExactArith (D : Type) `{!Arith D} : Prop := {
  add_zero_l : ∀ x : D, (d_zero + x)%D = x;
  add_comm : ∀ x y : D, (x + y)%D = (y + x)%D;
  add_assoc : ∀ x y z : D, ((x + y) + z)%D = (x + (y + z))%D
}.

Section sums_and_teams.
Context {D : Type} `{!Arith D}.

(** The sum of the first [n] components of [r], added in index order. *)
Definition vector_sum (r : list D) (n : Z) : D :=
  foldl (λ sum i, sum + rd r i)%D d_zero (seqZ 0 n).

(** A team is valid when, for every trip count, its threads run each
    iteration exactly once. *)
Definition team_valid (team : Team) : Prop :=
  ∀ n, concat (team n) ≡ₚ seqZ 0 n.

(** The sum of the first [n] components of [r] as a [reduction(+:sum)] of
    the team adds them. *)
Definition vector_sum_parallel (team : Team) (r : list D) (n : Z) : D :=
  omp_reduce_plus team n (λ i, rd r i) d_zero.

(** The [n]-by-[n] identity matrix in CSR form: one entry per row, equal to 1,
    on the diagonal. *)
Definition identity_csr (n : Z) : CSRMatrix D :=
  {| csr_n := n; csr_nnz := n;
     csr_values := replicate (Z.to_nat n) d_one;
     csr_col_idx := seqZ 0 n;
     csr_row_ptr := seqZ 0 (n + 1) |}.
End sums_and_teams.

(** A runtime that gives each thread one block of consecutive iterations
    and combines the partial sums by descending thread number: of the [n]
    iterations from [lo] on, the first of [more + 1] threads runs a share of
    [n / (more + 1)] and the others split the rest. *)
Fixpoint block_chunks (more : nat) (lo n : Z) : list (list Z) :=
  match more with
  | O => [seqZ lo n]
  | S more' =>
      let q := n / (Z.of_nat more' + 2) in
      block_chunks more' (lo + q) (n - q) ++ [seqZ lo q]
  end.

Definition omp_blocks (num_threads : Z) : Team :=
  λ n, block_chunks (Z.to_nat (num_threads - 1)) 0 (Z.max 0 n).

(** ** Example systems in binary64 *)

(** The double nearest to [1e-8], the tolerance of [main.c]. *)
Definition tol_1e8 : float := 0x1.5798ee2308c3ap-27%float.

(** The 1-by-1 identity system [1 * x = 1]. *)
Definition unit_system : FEMSystem float :=
  {| sys_A := {| csr_n := 1; csr_nnz := 1; csr_values := [1%float];
                 csr_col_idx := [0]; csr_row_ptr := [0; 1] |};
     sys_b := [1%float]; sys_x := [0%float]; sys_n := 1 |}.

(** [[3 1; 1 3] x = [1; 0]], whose solution is [[0.375; -0.125]]. *)
Definition sym2_system : FEMSystem float :=
  {| sys_A := {| csr_n := 2; csr_nnz := 4; csr_values := [3; 1; 1; 3]%float;
                 csr_col_idx := [0; 1; 0; 1]; csr_row_ptr := [0; 2; 4] |};
     sys_b := [1; 0]%float; sys_x := [0; 0]%float; sys_n := 2 |}.

(** [[3 0 1; 0 4 2; 1 0 1] x = [1; 0; 0]]: every column sums to 4. *)
Definition colsum3_system : FEMSystem float :=
  {| sys_A := {| csr_n := 3; csr_nnz := 6; csr_values := [3; 1; 4; 2; 1; 1]%float;
                 csr_col_idx := [0; 2; 1; 2; 0; 2]; csr_row_ptr := [0; 2; 4; 6] |};
     sys_b := [1; 0; 0]%float; sys_x := [0; 0; 0]%float; sys_n := 3 |}.

(** ** An example system in the reals *)

(** [[3 1; 1 3] x = [1; 0]] again, in exact arithmetic. *)
Definition real_sym2_system : FEMSystem R :=
  {| sys_A := {| csr_n := 2; csr_nnz := 4; csr_values := [3; 1; 1; 3]%R;
                 csr_col_idx := [0; 1; 0; 1]; csr_row_ptr := [0; 2; 4] |};
     sys_b := [1; 0]%R; sys_x := [0; 0]%R; sys_n := 2 |}.

(** The grid system of [create_fem_system 3 3] with a zero right-hand side. *)
Definition zero_rhs_system : FEMSystem float :=
  {| sys_A := sys_A (create_fem_system 3 3);
     sys_b := replicate 9 0%float;
     sys_x := replicate 9 0%float;
     sys_n := 9 |}.

(** The variables with which the loop on [colsum3_system] starts its second
    pass. *)
Definition colsum3_second_pass : Work float :=
  Eval vm_compute in
    default (serial_init colsum3_system) (serial_at colsum3_system tol_1e8 1).

(** ** More of the loop body *)

Section observations_second_half.
Context {D : Type} `{!Arith D}.

(** [x] after [x = x + alpha*p + omega*s]. *)
Definition body_x (A : CSRMatrix D) (n iter : Z) (w : Work D) : list D :=
  vector_axpy (body_omega A n iter w) (body_s A n iter w)
              (vector_axpy (body_alpha A n iter w) (body_p n iter w) (w_x w) n) n.

(** [fabs(omega) < 1e-30] *)
Definition omega_breakdown (A : CSRMatrix D) (n iter : Z) (w : Work D) : bool :=
  dlt (dfabs (body_omega A n iter w)) d_tiny.
End observations_second_half.

(** ** The working vectors as [malloc] returns them *)

Section scratch_buffers.
Context {D : Type} `{!Arith D}.

(** The six working vectors of a solve at their allocation: buffers whose
    content is indeterminate. *)
Record Scratch := {
  m_r : list D; m_r0 : list D; m_p : list D;
  m_v : list D; m_s : list D; m_t : list D
}.

(** Everything before the loop, [bnorm] apart, on buffers with the content
    [m]. *)
Definition serial_init_on (m : Scratch) (sys : FEMSystem D) : Work D :=
  let n := sys_n sys in
  let r := vector_copy (sys_b sys) (m_r m) n in
  let r0 := fill_ones (m_r0 m) n in
  let p := vector_copy r (m_p m) n in
  {| w_x := sys_x sys; w_r := r; w_r0 := r0; w_p := p;
     w_v := m_v m; w_s := m_s m; w_t := m_t m;
     w_rho := d_one; w_alpha := d_one; w_omega := d_one |}.

(** [bicgstab_serial] when [malloc] returns buffers with the content [m]. *)
Definition bicgstab_serial_on (m : Scratch) (sys : FEMSystem D) (max_iter : Z) (tol : D)
    : Z * FEMSystem D :=
  let '(iter, w) :=
    serial_loop (sys_A sys) (sys_n sys) (serial_bnorm sys) tol
                (Z.to_nat max_iter) 0 (serial_init_on m sys) in
  (solver_result iter max_iter,
   {| sys_A := sys_A sys; sys_b := sys_b sys; sys_x := w_x w; sys_n := sys_n sys |}).

(** Every buffer of [m] has [n] cells. *)
Definition scratch_size (m : Scratch) (n : Z) : Prop :=
  length (m_r m) = Z.to_nat n ∧ length (m_r0 m) = Z.to_nat n
  ∧ length (m_p m) = Z.to_nat n ∧ length (m_v m) = Z.to_nat n
  ∧ length (m_s m) = Z.to_nat n ∧ length (m_t m) = Z.to_nat n.

(** Two states of the loop at index [iter] agree on what the pass reads
    before it writes it: on everything but [s] and [t], and but [v] in the
    first pass. *)
Definition live_eq (n iter : Z) (w1 w2 : Work D) : Prop :=
  w_x w1 = w_x w2 ∧ w_r w1 = w_r w2 ∧ w_r0 w1 = w_r0 w2 ∧ w_p w1 = w_p w2
  ∧ w_rho w1 = w_rho w2 ∧ w_alpha w1 = w_alpha w2 ∧ w_omega w1 = w_omega w2
  ∧ (iter ≠ 0 → w_v w1 = w_v w2)
  ∧ (length (w_v w1) = Z.to_nat n ∧ length (w_v w2) = Z.to_nat n)
  ∧ (length (w_s w1) = Z.to_nat n ∧ length (w_s w2) = Z.to_nat n)
  ∧ (length (w_t w1) = Z.to_nat n ∧ length (w_t w2) = Z.to_nat n).
End scratch_buffers.

Arguments Scratch : clear implicits.

(** ** The grid *)

(** Node [(i, j)] lies strictly inside the grid. *)
Definition interior (nx ny i j : Z) : bool :=
  (0 <? i) && (i <? ny - 1) && (0 <? j) && (j <? nx - 1).

(** What holds of [b] when the nodes before node number [k] have been
    assembled. *)
Definition rhs_invariant {D : Type} `{!Arith D} (nx ny : Z) (k : Z) (a : Assembly D) : Prop :=
  length (asm_b a) = Z.to_nat (nx * ny)
  ∧ ∀ i j, 0 ≤ i → 0 ≤ j < nx → i * nx + j < k →
      rd (asm_b a) (i * nx + j) = node_rhs nx ny i j.

(** ** What the solvers expect of a system *)

Section well_formed.
Context {D : Type} `{!Arith D}.

(** A system as the solvers expect it: the matrix satisfies the CSR
    invariant and has as many rows as the system has unknowns, and [b] and
    [x] have one cell per unknown. *)
Definition system_wf (sys : FEMSystem D) : Prop :=
  csr_invariant (sys_A sys)
  ∧ csr_n (sys_A sys) = sys_n sys
  ∧ length (sys_b sys) = Z.to_nat (sys_n sys)
  ∧ length (sys_x sys) = Z.to_nat (sys_n sys).

(** What holds of the variables at the start of every pass in exact
    arithmetic, when the solve started from [x = 0]: the vectors keep their
    length, and [r] is the residual [b - A x] of the current [x]. *)
Definition residual_invariant (sys : FEMSystem D) (w : Work D) : Prop :=
  (length (w_x w) = Z.to_nat (sys_n sys) ∧ length (w_r w) = Z.to_nat (sys_n sys)
   ∧ length (w_p w) = Z.to_nat (sys_n sys) ∧ length (w_v w) = Z.to_nat (sys_n sys)
   ∧ length (w_s w) = Z.to_nat (sys_n sys) ∧ length (w_t w) = Z.to_nat (sys_n sys))
  ∧ ∀ i, 0 ≤ i < sys_n sys →
      rd (w_r w) i = (rd (sys_b sys) i - row_sum (sys_A sys) (w_x w) i)%D.
End well_formed.

(** ** main.c *)

(** The literal [1e-8], the tolerance of [run_benchmark]. *)
Class MainArith (D : Type) := { d_tol : D }.

#[export] Instance float_main : MainArith float := {| d_tol := tol_1e8 |}.

#[export] Instance real_main : MainArith R := {| d_tol := (/ 10 ^ 8)%R |}.

Section main_c.
Context {D : Type} `{!Arith D} `{!MainArith D}.

(** [verify_solution]: the value it prints, the norm of [b - A x] with
    [A x] computed by [matvec_csr] into a fresh buffer. *)
Definition verify_solution (sys : FEMSystem D) : D :=
  let n := sys_n sys in
  let Ax := matvec_csr (sys_A sys) (sys_x sys) (malloc n) in
  let residual :=
    foldl (λ residual i, let diff := (rd (sys_b sys) i - rd Ax i)%D in
                         (residual + diff * diff)%D)
          d_zero (seqZ 0 n) in
  dsqrt residual.

(** [memset(x, 0, n * sizeof(double))]: the first [n] cells become [+0.0]. *)
Definition memset_zero (x : list D) (n : Z) : list D :=
  foldl (λ x i, wr x i d_zero) x (seqZ 0 n).

(** [int thread_counts[] = {2, 4, 8};] *)
Definition thread_counts : list Z := [2; 4; 8].

(** What [run_benchmark] computes: the count the serial solve returns, the
    residual norm that [verify_solution] prints when that count is positive,
    and for each thread count the count the parallel solve returns (the row
    of the table is printed when this count is positive).  The times and the
    lines that [print_system_info] prints are not modelled. *)
Record Benchmark := {
  iter_serial : Z;
  serial_residual : option D;
  parallel_runs : list (Z * Z)
}.

Definition run_benchmark (omp : Z → Team) (nx ny : Z) : Benchmark :=
  let sys := create_fem_system nx ny in
  let max_iter := 10000 in
  let tol := d_tol in
  let sys := with_x sys (memset_zero (sys_x sys) (sys_n sys)) in
  let '(iter_serial, sys) := bicgstab_serial sys max_iter tol in
  let residual := if 0 <? iter_serial then Some (verify_solution sys) else None in
  let '(runs, _) :=
    foldl (λ '(runs, sys) num_threads,
             let sys := with_x sys (memset_zero (sys_x sys) (sys_n sys)) in
             let '(iter_parallel, sys) :=
               bicgstab_parallel omp sys max_iter tol num_threads in
             (runs ++ [(num_threads, iter_parallel)], sys))
          ([], sys) thread_counts in
  {| iter_serial := iter_serial; serial_residual := residual; parallel_runs := runs |}.

End main_c.

Arguments Benchmark : clear implicits.

(** ** More laws and teams *)

(** Adding zero to zero gives zero.  This holds in binary64 and in the
    reals. *)
Class ZeroSum (D : Type) `{!Arith D} : Prop := {
  zero_plus_zero : (d_zero + d_zero)%D = d_zero
}.

(** A team of one thread: it runs the iterations in index order. *)
Definition team_single (team : Team) : Prop := ∀ n, team n = [seqZ 0 n].

(** ** More example systems *)

(** [[0 1; -1 0] x = [1; 0]]: the matrix turns every vector by a right
    angle, so [t = A s] is orthogonal to [s]. *)
Definition rot2_system : FEMSystem float :=
  {| sys_A := {| csr_n := 2; csr_nnz := 2; csr_values := [1; -1]%float;
                 csr_col_idx := [1; 0]; csr_row_ptr := [0; 1; 2] |};
     sys_b := [1; 0]%float; sys_x := [0; 0]%float; sys_n := 2 |}.

(** Working vectors of two cells with arbitrary content. *)
Definition stale_scratch : Scratch float :=
  {| m_r := [7; -3]%float; m_r0 := [0.5; 2]%float; m_p := [-1; 9]%float;
     m_v := [4; 4]%float; m_s := [-8; 0.25]%float; m_t := [6; -5]%float |}.

(** The 1-by-1 identity system [1 * x = 1] in exact arithmetic. *)
Definition real_unit_system : FEMSystem R :=
  {| sys_A := {| csr_n := 1; csr_nnz := 1; csr_values := [1%R];
                 csr_col_idx := [0]; csr_row_ptr := [0; 1] |};
     sys_b := [1%R]; sys_x := [0%R]; sys_n := 1 |}.

(** * Properties *)

(** ** The laws in binary64 and in the reals *)

#[export] Instance float_zero_laws : ZeroLaws float.
Proof. split; reflexivity. Qed.

#[export] Instance real_zero_laws : ZeroLaws R.
Proof.
  split.
  - change (0 + 1 * 0 = 0)%R. lra.
  - change (0 + 0 * 0 = 0)%R. lra.
  - change (Reqb (R_sqrt.sqrt 0) 0 = true).
    unfold Reqb. destruct (Req_dec_T _ _) as [|Hne]; [done|].
    destruct Hne. apply R_sqrt.sqrt_0.
  - change (Rltb (Rabs 0) (/ 10 ^ 30) = true).
    unfold Rltb. destruct (Rlt_dec _ _) as [|Hnlt]; [done|].
    destruct Hnlt. rewrite Rabs_R0. apply Rinv_0_lt_compat, pow_lt. lra.
Qed.

#[export] Instance real_one_neutral : OneNeutral R.
Proof. split. intros x. apply Rmult_1_l. Qed.

#[export] Instance real_exact : ExactArith R.
Proof. split; simpl; intros; lra. Qed.

(** The mantissa of [2^52 * m] has 52 more digits than that of [m]. *)
Lemma digits2_pos_shift52 (m : positive) :
  Z.pos (digits2_pos (Pos.iter xO m 52)) = Z.pos (digits2_pos m) + 52.
Proof. cbn. lia. Qed.

(** In the specification of binary64, the product of 1 and a valid number
    rounds back to that number: the 52 bits shifted out are zero. *)
Lemma SF64mul_one_l (s : spec_float) :
  valid_binary s = true → SF64mul (Prim2SF 1%float) s = s.
Proof.
  intros Hvalid.
  change (Prim2SF 1%float) with (S754_finite false 4503599627370496 (-52)).
  destruct s as [sy|sy| |sy my ey]; try reflexivity.
  unfold SF64mul, SFmul.
  simpl in Hvalid. unfold bounded, canonical_mantissa in Hvalid.
  apply andb_prop in Hvalid. destruct Hvalid as [Hcanon Hbound].
  apply Z.eqb_eq in Hcanon.
  unfold binary_round_aux.
  change (Z.pos (4503599627370496 * my)) with (Z.pos (Pos.iter xO my 52)).
  unfold shr_fexp at 1. unfold Zdigits2. rewrite digits2_pos_shift52.
  replace (Z.pos (digits2_pos my) + 52 + (-52 + ey)) with (Z.pos (digits2_pos my) + ey)
    by lia.
  rewrite Hcanon.
  replace (ey - (-52 + ey)) with 52 by lia.
  cbn [shr shr_record_of_loc SpecFloat.iter_pos].
  cbn [Pos.iter shr_1 orb].
  cbn [shr_m loc_of_shr_record round_nearest_even].
  unfold shr_fexp, Zdigits2.
  replace (-52 + ey + 52) with ey by lia.
  rewrite Hcanon, Z.sub_diag.
  cbn [shr shr_record_of_loc shr_m xorb].
  by rewrite Hbound.
Qed.

Lemma float_mul_one_l (x : float) : (1 * x)%float = x.
Proof. apply Prim2SF_inj. rewrite mul_spec. apply SF64mul_one_l, Prim2SF_valid. Qed.

#[export] Instance float_one_neutral : OneNeutral float.
Proof. split. apply float_mul_one_l. Qed.

(** Adding [0.0] changes nothing but the sign of a negative zero. *)
Lemma float_add_zero_l (x : float) : x ≠ (-0)%float → (0 + x)%float = x.
Proof.
  intros Hx. apply Prim2SF_inj. rewrite add_spec.
  change (Prim2SF 0%float) with (S754_zero false).
  destruct (Prim2SF x) as [[|]| | |] eqn:E; try reflexivity.
  destruct Hx. apply Prim2SF_inj. by rewrite E.
Qed.

(** ** Loops over an index range *)

Section loops.
Context {St : Type}.

(** An invariant indexed by the loop counter is carried through
    [for (k = lo; k < lo + n; k++)]. *)
Lemma foldl_seqZ_invariant (P : Z → St → Prop) (f : St → Z → St) (lo n : Z) (s : St) :
  0 ≤ n → P lo s →
  (∀ k s, lo ≤ k < lo + n → P k s → P (k + 1) (f s k)) →
  P (lo + n) (foldl f s (seqZ lo n)).
Proof.
  intros Hn Hs Hstep.
  rewrite <- (Z2Nat.id n) in * by done. 
  induction (Z.to_nat n) as [|m IH].
  - simpl. by rewrite Z.add_0_r.
  - rewrite seqZ_S, foldl_app. simpl.
    replace (lo + Z.of_nat (S m)) with (lo + Z.of_nat m + 1) by lia.
    apply Hstep; [lia|]. apply IH; [lia|].
    intros k s' Hk. apply Hstep. lia.
Qed.

(** A property every iteration preserves holds after the loop. *)
Lemma foldl_preserves (Q : St → Prop) (f : St → Z → St) (l : list Z) (s : St) :
  Q s → (∀ k s, k ∈ l → Q s → Q (f s k)) → Q (foldl f s l).
Proof.
  revert s. induction l as [|k l IH]; intros s Hs Hstep; simpl; [done|].
  apply IH.
  - apply Hstep; [left | done].
  - intros k' s' Hk'. apply Hstep. by right.
Qed.

(** Two loops with equal bodies are equal. *)
Lemma foldl_same_body (f g : St → Z → St) (l : list Z) (s : St) :
  (∀ s k, f s k = g s k) → foldl f s l = foldl g s l.
Proof.
  intros Hfg. revert s. induction l as [|k l IH]; intros s; simpl; [done|].
  by rewrite Hfg, IH.
Qed.

(** A loop whose iterations commute gives the same result in any order. *)
Lemma foldl_commute_perm (f : St → Z → St) (l1 l2 : list Z) :
  (∀ s i j, f (f s i) j = f (f s j) i) →
  l1 ≡ₚ l2 → ∀ s, foldl f s l1 = foldl f s l2.
Proof.
  intros Hcomm Hperm. induction Hperm as [|i l l' _ IH|i j l|l l' l'' _ IH1 _ IH2]; intros s.
  - done.
  - simpl. apply IH.
  - simpl. by rewrite Hcomm.
  - by rewrite IH1.
Qed.
End loops.

(** ** Reading and writing arrays *)

Section array_facts.
Context {T : Type} `{!Inhabited T}.
Implicit Types (a : list T) (i j : Z) (v : T).

Lemma rd_nonneg a i : 0 ≤ i → rd a i = a !!! Z.to_nat i.
Proof. intros. unfold rd. by rewrite decide_True by done. Qed.

Lemma length_wr a i v : length (wr a i v) = length a.
Proof. unfold wr. case_decide; [apply length_insert | done]. Qed.

Lemma rd_wr_eq a i v :
  0 ≤ i → (Z.to_nat i < length a)%nat → rd (wr a i v) i = v.
Proof.
  intros Hi Hlen. rewrite rd_nonneg by done. unfold wr. rewrite decide_True by done.
  by apply list_lookup_total_insert_eq.
Qed.

Lemma rd_wr_ne a i j v : i ≠ j → 0 ≤ j → rd (wr a i v) j = rd a j.
Proof.
  intros Hij Hj. rewrite !rd_nonneg by done. unfold wr. case_decide; [|done].
  apply list_lookup_total_insert_ne. lia.
Qed.

Lemma wr_out_of_range a i v : (length a ≤ Z.to_nat i)%nat → wr a i v = a.
Proof. intros Hlen. unfold wr. case_decide; [by apply list_insert_ge | done]. Qed.

Lemma wr_negative a i v : ¬ 0 ≤ i → wr a i v = a.
Proof. intros Hi. unfold wr. by rewrite decide_False by done. Qed.

Lemma wr_wr_eq a i u v : wr (wr a i u) i v = wr a i v.
Proof. unfold wr. case_decide; [apply list_insert_insert_eq | done]. Qed.

Lemma wr_wr_ne a i j u v : i ≠ j → wr (wr a i u) j v = wr (wr a j v) i u.
Proof.
  intros Hij. unfold wr. repeat case_decide; try done.
  apply list_insert_insert_ne. lia.
Qed.

Lemma rd_replicate (m : nat) v i :
  0 ≤ i → (Z.to_nat i < m)%nat → rd (replicate m v) i = v.
Proof. intros. rewrite rd_nonneg by done. by apply lookup_total_replicate_2. Qed.

Lemma rd_fmap_seqZ (f : Z → T) (n i : Z) : 0 ≤ i < n → rd (f <$> seqZ 0 n) i = f i.
Proof.
  intros Hi. rewrite rd_nonneg by lia.
  rewrite (list_lookup_total_fmap f (seqZ 0 n)) by (rewrite length_seqZ; lia).
  rewrite lookup_total_seqZ_lt by lia. f_equal. lia.
Qed.

Lemma rd_fmap {U : Type} `{!Inhabited U} (f : T → U) a i :
  0 ≤ i → (Z.to_nat i < length a)%nat → rd (f <$> a) i = f (rd a i).
Proof.
  intros. unfold rd. rewrite !decide_True by done.
  by apply list_lookup_total_fmap.
Qed.

(** A loop that only writes cells keeps the length of the buffer. *)
Lemma length_foldl_wr (g : list T → Z → T) (l : list Z) a :
  length (foldl (λ a i, wr a i (g a i)) a l) = length a.
Proof.
  revert a. induction l as [|i l IH]; intros a; simpl; [done|].
  by rewrite IH, length_wr.
Qed.

(** Two buffers of one length with the same cells are equal. *)
Lemma list_eq_rd a b :
  length a = length b →
  (∀ i, 0 ≤ i → (Z.to_nat i < length a)%nat → rd a i = rd b i) →
  a = b.
Proof.
  intros Hlen Hrd. apply (list_eq_same_length _ _ (length a)); [done..|].
  intros i x y Hi Hx Hy.
  specialize (Hrd (Z.of_nat i)). rewrite !rd_nonneg, Nat2Z.id in Hrd by lia.
  rewrite (list_lookup_total_correct _ _ _ Hx), (list_lookup_total_correct _ _ _ Hy) in Hrd.
  apply Hrd; lia.
Qed.

(** A slice is determined by its cells. *)
Lemma slice_pointwise a (es : list T) (lo : Z) :
  0 ≤ lo →
  (Z.to_nat lo + length es ≤ length a)%nat →
  (∀ t, 0 ≤ t < Z.of_nat (length es) → rd a (lo + t) = rd es t) →
  slice a lo (lo + Z.of_nat (length es)) = es.
Proof.
  intros Hlo Hlen Hcells. unfold slice.
  replace (Z.to_nat (lo + Z.of_nat (length es) - lo)) with (length es) by lia.
  apply list_eq_rd.
  - rewrite length_take, length_drop. lia.
  - intros t Ht Hlt. rewrite length_take, length_drop in Hlt.
    rewrite <- Hcells by lia. rewrite !rd_nonneg by lia.
    rewrite lookup_total_take_lt, lookup_total_drop by lia.
    f_equal. lia.
Qed.

(** The loops of the vector kernels: iteration [k] rewrites cell [k] from
    its own content. *)
Lemma rd_foldl_pointwise (g : Z → T → T) a n i :
  0 ≤ i → (Z.to_nat i < length a)%nat →
  rd (foldl (λ a k, wr a k (g k (rd a k))) a (seqZ 0 n)) i
  = if decide (i < n) then g i (rd a i) else rd a i.
Proof.
  intros Hi Hlen. destruct (decide (0 ≤ n)) as [Hn|Hn].
  - set (P := λ (k : Z) (a' : list T),
               length a' = length a ∧
               ∀ i, 0 ≤ i → (Z.to_nat i < length a)%nat →
                 rd a' i = if decide (i < k) then g i (rd a i) else rd a i).
    assert (P (0 + n) (foldl (λ a k, wr a k (g k (rd a k))) a (seqZ 0 n))) as [_ H].
    { apply (foldl_seqZ_invariant P); [done| |].
      - split; [done|]. intros i' ??. by rewrite decide_False by lia.
      - intros k a' Hk [Hlen' IH]. split; [by rewrite length_wr|].
        intros i' Hi' Hlt. destruct (decide (i' = k)) as [->|Hne].
        + rewrite rd_wr_eq by lia. rewrite IH by done.
          rewrite decide_False by lia. by rewrite decide_True by lia.
        + rewrite rd_wr_ne by (done || lia). rewrite IH by done.
          repeat case_decide; (done || lia). }
    rewrite H by done. by rewrite Z.add_0_l.
  - rewrite seqZ_nil by lia. simpl. by rewrite decide_False by lia.
Qed.

(** Such iterations commute with one another. *)
Lemma pointwise_body_commute (g : Z → T → T) a i j :
  wr (wr a i (g i (rd a i))) j (g j (rd (wr a i (g i (rd a i))) j))
  = wr (wr a j (g j (rd a j))) i (g i (rd (wr a j (g j (rd a j))) i)).
Proof.
  destruct (decide (i = j)) as [->|Hne]; [done|].
  destruct (decide (0 ≤ i)) as [Hi|Hi]; destruct (decide (0 ≤ j)) as [Hj|Hj].
  - rewrite !rd_wr_ne by (done || lia). by apply wr_wr_ne.
  - by rewrite !(wr_negative _ j) by done.
  - by rewrite !(wr_negative _ i) by done.
  - by rewrite !(wr_negative _ i), !(wr_negative _ j) by done.
Qed.
End array_facts.


(** ** The control flow of [bicgstab_serial] *)

Section serial_control.
Context {D : Type} `{!Arith D}.
Implicit Types (A : CSRMatrix D) (sys : FEMSystem D) (w : Work D) (tol bnorm : D).

Lemma with_x_same sys : with_x sys (sys_x sys) = sys.
Proof. by destruct sys. Qed.

Lemma bicgstab_serial_unfold sys max_iter tol :
  bicgstab_serial sys max_iter tol =
  (solver_result
     (fst (serial_loop (sys_A sys) (sys_n sys) (serial_bnorm sys) tol
                       (Z.to_nat max_iter) 0 (serial_init sys))) max_iter,
   with_x sys
     (w_x (snd (serial_loop (sys_A sys) (sys_n sys) (serial_bnorm sys) tol
                            (Z.to_nat max_iter) 0 (serial_init sys))))).
Proof. unfold bicgstab_serial. by destruct (serial_loop _ _ _ _ _ _ _). Qed.

(** The loop resumes from any index it reaches. *)
Lemma serial_loop_resume A n bnorm tol (k todo : nat) w0 w :
  serial_reach A n bnorm tol k w0 = Some w → (k ≤ todo)%nat →
  serial_loop A n bnorm tol todo 0 w0 =
  serial_loop A n bnorm tol (todo - k) (Z.of_nat k) w.
Proof.
  revert w. induction k as [|k IH]; intros w Hreach Hle.
  - simpl in Hreach. injection Hreach as ->. by rewrite Nat.sub_0_r.
  - simpl in Hreach.
    destruct (serial_reach A n bnorm tol k w0) as [w1|] eqn:Hk; [|done].
    destruct (serial_body A n bnorm tol (Z.of_nat k) w1) as [w2|] eqn:Hbody; [|done].
    injection Hreach as ->.
    rewrite (IH w1) by (done || lia).
    replace (todo - k)%nat with (S (todo - S k)) by lia.
    simpl. rewrite Hbody. f_equal. lia.
Qed.

Lemma serial_body_rho_breakdown A n bnorm tol iter w :
  rho_breakdown n w = true →
  ∃ w', serial_body A n bnorm tol iter w = Break iter w' ∧ w_x w' = w_x w.
Proof.
  unfold rho_breakdown, body_rho, serial_body. intros ->. by eexists.
Qed.

Lemma serial_body_first_check A n bnorm tol iter w :
  rho_breakdown n w = false → first_check A n bnorm tol iter w = true →
  ∃ w', serial_body A n bnorm tol iter w = Break iter w' ∧
        w_x w' = vector_axpy (body_alpha A n iter w) (body_p n iter w) (w_x w) n.
Proof.
  unfold rho_breakdown, first_check, body_s, body_alpha, body_v, body_p, body_rho,
    serial_body.
  intros -> ->. by eexists.
Qed.

Lemma serial_body_second_check A n bnorm tol iter w :
  rho_breakdown n w = false → first_check A n bnorm tol iter w = false →
  second_check A n bnorm tol iter w = true →
  ∃ w', serial_body A n bnorm tol iter w = Break (iter + 1) w'.
Proof.
  unfold rho_breakdown, first_check, second_check, body_r, body_omega, body_t, body_s,
    body_alpha, body_v, body_p, body_rho, serial_body.
  intros -> -> ->. by eexists.
Qed.

(** A pass of the body leaves the loop with [iter] unchanged or one more. *)
Lemma serial_body_break_index A n bnorm tol iter w iter' w' :
  serial_body A n bnorm tol iter w = Break iter' w' → iter' = iter ∨ iter' = iter + 1.
Proof.
  unfold serial_body. repeat case_match; intros [= <- <-]; auto.
Qed.

(** The loop leaves [iter] between its start and the bound. *)
Lemma serial_loop_index_range A n bnorm tol todo iter w :
  iter ≤ fst (serial_loop A n bnorm tol todo iter w) ≤ iter + Z.of_nat todo.
Proof.
  revert iter w. induction todo as [|todo IH]; intros iter w; simpl; [lia|].
  destruct (serial_body A n bnorm tol iter w) as [w'|iter' w'] eqn:Hbody.
  - specialize (IH (iter + 1) w'). lia.
  - apply serial_body_break_index in Hbody. simpl. lia.
Qed.

(** The call returns the loop index at which [rho] breaks down. *)
Lemma serial_rho_breakdown_result sys max_iter tol (k : nat) w :
  serial_at sys tol k = Some w →
  Z.of_nat k < max_iter →
  rho_breakdown (sys_n sys) w = true →
  bicgstab_serial sys max_iter tol = (Z.of_nat k, with_x sys (w_x w)).
Proof.
  intros Hreach Hk Hrho.
  rewrite bicgstab_serial_unfold.
  rewrite (serial_loop_resume _ _ _ _ k _ _ w Hreach) by lia.
  replace (Z.to_nat max_iter - k)%nat with (S (Z.to_nat max_iter - S k)) by lia.
  destruct (serial_body_rho_breakdown (sys_A sys) (sys_n sys) (serial_bnorm sys) tol
              (Z.of_nat k) w Hrho) as (w' & Hbody & Hx).
  simpl. rewrite Hbody. simpl. rewrite Hx.
  unfold solver_result. by rewrite (proj2 (Z.leb_gt _ _)) by lia.
Qed.

(** C3: when [fabs(rho) < 1e-30] holds for [rho = dot(r0, r)] at loop index [k],
    the loop is left at once and the call returns [k], which is not negative
    and is not the failure sentinel; [x] is as the passes before left it. *)
Theorem rho_breakdown_returns_index sys max_iter tol (k : nat) w :
  serial_at sys tol k = Some w →
  Z.of_nat k < max_iter →
  rho_breakdown (sys_n sys) w = true →
  bicgstab_serial sys max_iter tol = (Z.of_nat k, with_x sys (w_x w))
  ∧ 0 ≤ Z.of_nat k ∧ Z.of_nat k ≠ failure_sentinel.
Proof.
  intros Hreach Hk Hrho. split; [|unfold failure_sentinel; lia].
  by apply serial_rho_breakdown_result.
Qed.

(** What the code returns when the first convergence check passes at loop
    index [k]: the index [k] itself, with [x] advanced by [alpha * p]. *)
Lemma first_check_returns_index sys max_iter tol (k : nat) w :
  serial_at sys tol k = Some w →
  Z.of_nat k < max_iter →
  rho_breakdown (sys_n sys) w = false →
  first_check (sys_A sys) (sys_n sys) (serial_bnorm sys) tol (Z.of_nat k) w = true →
  bicgstab_serial sys max_iter tol =
  (Z.of_nat k,
   with_x sys (vector_axpy (body_alpha (sys_A sys) (sys_n sys) (Z.of_nat k) w)
                           (body_p (sys_n sys) (Z.of_nat k) w) (w_x w) (sys_n sys))).
Proof.
  intros Hreach Hk Hrho H1.
  rewrite bicgstab_serial_unfold.
  rewrite (serial_loop_resume _ _ _ _ k _ _ w Hreach) by lia.
  replace (Z.to_nat max_iter - k)%nat with (S (Z.to_nat max_iter - S k)) by lia.
  destruct (serial_body_first_check _ _ (serial_bnorm sys) tol _ _ Hrho H1)
    as (w' & Hbody & Hx).
  simpl. rewrite Hbody. simpl. rewrite Hx.
  unfold solver_result. by rewrite (proj2 (Z.leb_gt _ _)) by lia.
Qed.

(** What the code returns when the second convergence check passes at loop
    index [k]: [k + 1] when that is below [max_iter], and the failure
    sentinel when [k] is the last index, [max_iter - 1]. *)
Lemma second_check_returns sys max_iter tol (k : nat) w :
  serial_at sys tol k = Some w →
  Z.of_nat k < max_iter →
  rho_breakdown (sys_n sys) w = false →
  first_check (sys_A sys) (sys_n sys) (serial_bnorm sys) tol (Z.of_nat k) w = false →
  second_check (sys_A sys) (sys_n sys) (serial_bnorm sys) tol (Z.of_nat k) w = true →
  fst (bicgstab_serial sys max_iter tol) =
  if decide (Z.of_nat k + 1 = max_iter) then failure_sentinel else Z.of_nat k + 1.
Proof.
  intros Hreach Hk Hrho H1 H2.
  rewrite bicgstab_serial_unfold.
  rewrite (serial_loop_resume _ _ _ _ k _ _ w Hreach) by lia.
  replace (Z.to_nat max_iter - k)%nat with (S (Z.to_nat max_iter - S k)) by lia.
  destruct (serial_body_second_check _ _ (serial_bnorm sys) tol _ _ Hrho H1 H2)
    as (w' & Hbody).
  simpl. rewrite Hbody. simpl. unfold solver_result.
  case_decide.
  - by rewrite (proj2 (Z.leb_le _ _)) by lia.
  - by rewrite (proj2 (Z.leb_gt _ _)) by lia.
Qed.
End serial_control.

(** C3 on [colsum3_system]: the first pass completes, [rho] vanishes at loop
    index 1 and the call returns 1. *)
Lemma rho_breakdown_returns_index_witness :
  bicgstab_serial colsum3_system 10 tol_1e8
  = (Z.of_nat 1, with_x colsum3_system (w_x colsum3_second_pass))
  ∧ 0 ≤ Z.of_nat 1 ∧ Z.of_nat 1 ≠ failure_sentinel.
Proof.
  apply (rho_breakdown_returns_index colsum3_system 10 tol_1e8 1 colsum3_second_pass).
  - vm_compute. reflexivity.
  - lia.
  - vm_compute. reflexivity.
Defined.

(** C1 on [unit_system]: the first convergence check passes at loop index 0,
    [x] is advanced by [alpha * p] to the exact solution, and the call returns
    0, the loop index, where the message it prints says iteration 1. *)
Theorem first_check_at_0_returns_0 :
  rho_breakdown (sys_n unit_system) (serial_init unit_system) = false
  ∧ first_check (sys_A unit_system) (sys_n unit_system) (serial_bnorm unit_system)
                tol_1e8 0 (serial_init unit_system) = true
  ∧ bicgstab_serial unit_system 10 tol_1e8 = (0, with_x unit_system [1%float]).
Proof. vm_compute. auto. Qed.

(** C2 on [sym2_system] with [max_iter = 1]: the second convergence check
    passes at loop index 0 with the exact solution in [x], and the call
    returns the failure sentinel; with [max_iter = 2] the same run returns 1. *)
Theorem second_check_at_last_index_returns_sentinel :
  rho_breakdown (sys_n sym2_system) (serial_init sym2_system) = false
  ∧ first_check (sys_A sym2_system) (sys_n sym2_system) (serial_bnorm sym2_system)
                tol_1e8 0 (serial_init sym2_system) = false
  ∧ second_check (sys_A sym2_system) (sys_n sym2_system) (serial_bnorm sym2_system)
                 tol_1e8 0 (serial_init sym2_system) = true
  ∧ bicgstab_serial sym2_system 1 tol_1e8
    = (failure_sentinel, with_x sym2_system [0.375; -0.125]%float)
  ∧ bicgstab_serial sym2_system 2 tol_1e8
    = (1, with_x sym2_system [0.375; -0.125]%float).
Proof. vm_compute. auto 6. Qed.

(** ** The frame of a solve *)

Section frame.
Context {D : Type} `{!Arith D}.
Implicit Types (A : CSRMatrix D) (sys : FEMSystem D) (w : Work D) (tol bnorm : D).

Lemma length_vector_axpy (a : D) (x y : list D) n :
  length (vector_axpy a x y n) = length y.
Proof. apply (length_foldl_wr (λ y i, rd y i + a * rd x i)%D). Qed.

Lemma length_vector_axpy_parallel team (a : D) (x y : list D) n :
  length (vector_axpy_parallel team a x y n) = length y.
Proof. apply (length_foldl_wr (λ y i, rd y i + a * rd x i)%D). Qed.

Lemma serial_body_length_x A n bnorm tol iter w :
  match serial_body A n bnorm tol iter w with
  | Next w' | Break _ w' => length (w_x w') = length (w_x w)
  end.
Proof.
  unfold serial_body. repeat case_match; simplify_eq; simpl;
    by rewrite ?length_vector_axpy.
Qed.

Lemma serial_loop_length_x A n bnorm tol todo iter w :
  length (w_x (snd (serial_loop A n bnorm tol todo iter w))) = length (w_x w).
Proof.
  revert iter w. induction todo as [|todo IH]; intros iter w; simpl; [done|].
  pose proof (serial_body_length_x A n bnorm tol iter w) as Hbody.
  destruct (serial_body A n bnorm tol iter w) as [w'|iter' w']; simpl.
  - by rewrite IH.
  - done.
Qed.

Lemma parallel_body_length_x team A n bnorm tol iter w :
  match parallel_body team A n bnorm tol iter w with
  | Next w' | Break _ w' => length (w_x w') = length (w_x w)
  end.
Proof.
  unfold parallel_body. repeat case_match; simplify_eq; simpl;
    by rewrite ?length_vector_axpy_parallel.
Qed.

Lemma parallel_loop_length_x team A n bnorm tol todo iter w :
  length (w_x (snd (parallel_loop team A n bnorm tol todo iter w))) = length (w_x w).
Proof.
  revert iter w. induction todo as [|todo IH]; intros iter w; simpl; [done|].
  pose proof (parallel_body_length_x team A n bnorm tol iter w) as Hbody.
  destruct (parallel_body team A n bnorm tol iter w) as [w'|iter' w']; simpl.
  - by rewrite IH.
  - done.
Qed.

Lemma bicgstab_parallel_unfold omp sys max_iter tol num_threads :
  bicgstab_parallel omp sys max_iter tol num_threads =
  (solver_result
     (fst (parallel_loop (omp num_threads) (sys_A sys) (sys_n sys)
             (parallel_bnorm (omp num_threads) sys) tol
             (Z.to_nat max_iter) 0 (parallel_init (omp num_threads) sys))) max_iter,
   with_x sys
     (w_x (snd (parallel_loop (omp num_threads) (sys_A sys) (sys_n sys)
                  (parallel_bnorm (omp num_threads) sys) tol
                  (Z.to_nat max_iter) 0 (parallel_init (omp num_threads) sys))))).
Proof. unfold bicgstab_parallel. by destruct (parallel_loop _ _ _ _ _ _ _ _). Qed.

(** C4: with [max_iter = 0] the solver returns the failure sentinel and
    leaves the system, [x] included, as it was; so does the parallel solver. *)
Theorem zero_max_iter_returns_sentinel omp sys tol num_threads :
  bicgstab_serial sys 0 tol = (failure_sentinel, sys)
  ∧ bicgstab_parallel omp sys 0 tol num_threads = (failure_sentinel, sys).
Proof.
  rewrite bicgstab_serial_unfold, bicgstab_parallel_unfold. simpl.
  by rewrite with_x_same.
Qed.

End frame.

(** ** The vector kernels, cell by cell *)

Section kernel_facts.
Context {D : Type} `{!Arith D}.
Implicit Types (a b x y z r p v : list D) (n i : Z).

Lemma length_malloc n : length (malloc (D:=D) n) = Z.to_nat n.
Proof. apply length_replicate. Qed.

Lemma rd_replicate_zero (m : nat) i : rd (replicate m (d_zero : D)) i = d_zero.
Proof.
  unfold rd. case_decide; [|done].
  destruct (decide (Z.to_nat i < m)%nat).
  - by apply lookup_total_replicate_2.
  - rewrite list_lookup_total_alt.
    by rewrite (proj1 (lookup_replicate_None m d_zero (Z.to_nat i))) by lia.
Qed.

Lemma length_vector_copy src dst n : length (vector_copy src dst n) = length dst.
Proof. apply (length_foldl_wr (λ _ i, rd src i)). Qed.

Lemma length_fill_ones r0 n : length (fill_ones r0 n) = length r0.
Proof. apply (length_foldl_wr (λ _ _, d_one)). Qed.

Lemma rd_vector_copy src dst n i :
  0 ≤ i < n → (Z.to_nat i < length dst)%nat → rd (vector_copy src dst n) i = rd src i.
Proof.
  intros Hi Hlen. unfold vector_copy.
  rewrite (rd_foldl_pointwise (λ k _, rd src k)) by (done || lia).
  by rewrite decide_True by lia.
Qed.

Lemma rd_fill_ones r0 n i :
  0 ≤ i < n → (Z.to_nat i < length r0)%nat → rd (fill_ones r0 n) i = d_one.
Proof.
  intros Hi Hlen. unfold fill_ones.
  rewrite (rd_foldl_pointwise (λ _ _, d_one)) by (done || lia).
  by rewrite decide_True by lia.
Qed.

(** The shadow residual after initialisation: [n] ones. *)
Lemma fill_ones_malloc n : fill_ones (malloc n) n = replicate (Z.to_nat n) (d_one : D).
Proof.
  apply list_eq_rd.
  - by rewrite length_fill_ones, length_malloc, length_replicate.
  - intros i Hi Hlen. rewrite length_fill_ones, length_malloc in Hlen.
    rewrite rd_fill_ones by (rewrite ?length_malloc; lia).
    by rewrite rd_replicate by lia.
Qed.

(** A dot product whose terms all leave the running sum at zero is zero. *)
Lemma dot_product_vanishes a b n :
  (∀ i, 0 ≤ i < n → (d_zero + rd a i * rd b i)%D = d_zero) →
  dot_product a b n = d_zero.
Proof.
  intros Hterm. unfold dot_product.
  apply (foldl_preserves (λ sum, sum = d_zero)); [done|].
  intros k sum Hk ->. apply Hterm. apply elem_of_seqZ in Hk. lia.
Qed.
End kernel_facts.

(** ** A zero right-hand side *)

Section zero_rhs.
Context {D : Type} `{!Arith D} `{!ZeroLaws D}.

Lemma serial_bnorm_zero_rhs (sys : FEMSystem D) :
  sys_b sys = replicate (Z.to_nat (sys_n sys)) d_zero →
  serial_bnorm sys = d_one.
Proof.
  intros Hb. unfold serial_bnorm, vector_norm.
  rewrite dot_product_vanishes.
  - by rewrite sqrt_zero_equals_zero.
  - intros i _. rewrite Hb, rd_replicate_zero. apply zero_plus_zero_times_zero.
Qed.

Lemma rho_breakdown_zero_rhs (sys : FEMSystem D) :
  sys_b sys = replicate (Z.to_nat (sys_n sys)) d_zero →
  rho_breakdown (sys_n sys) (serial_init sys) = true.
Proof.
  intros Hb. unfold rho_breakdown, body_rho. simpl.
  rewrite dot_product_vanishes; [apply zero_below_tiny|].
  intros i Hi.
  rewrite rd_fill_ones, rd_vector_copy by (rewrite ?length_malloc; lia).
  rewrite Hb, rd_replicate_zero. apply zero_plus_one_times_zero.
Qed.

(** C5: when [b] is the zero vector and [max_iter > 0], whatever the matrix
    and the tolerance, [bnorm] is replaced by 1.0, [rho] breaks down in the
    first pass, and the call returns iteration 0 with the system as it was:
    a pre-zeroed [x] is still the zero vector.  The arithmetic enters through
    the laws on zero only, which binary64 and the reals satisfy. *)
Theorem zero_rhs_stops_at_0 (sys : FEMSystem D) (max_iter : Z) (tol : D) :
  0 < max_iter →
  sys_b sys = replicate (Z.to_nat (sys_n sys)) d_zero →
  serial_bnorm sys = d_one
  ∧ bicgstab_serial sys max_iter tol = (0, sys).
Proof.
  intros Hmax Hb. split; [by apply serial_bnorm_zero_rhs|].
  rewrite (serial_rho_breakdown_result sys max_iter tol 0 (serial_init sys));
    [simpl; by rewrite with_x_same | done | done | by apply rho_breakdown_zero_rhs].
Qed.
End zero_rhs.

(** C5 on the 3-by-3 grid system of [create_fem_system] with [b] zeroed. *)
Lemma zero_rhs_stops_at_0_witness :
  serial_bnorm (D:=float) zero_rhs_system = d_one
  ∧ bicgstab_serial zero_rhs_system 10000 tol_1e8 = (0, zero_rhs_system).
Proof.
  apply (zero_rhs_stops_at_0 zero_rhs_system 10000 tol_1e8).
  - lia.
  - vm_compute. reflexivity.
Defined.

(** ** The OpenMP kernels against the serial kernels *)

Section parallel_kernels.
Context {D : Type} `{!Arith D}.
Context (team : Team) (Hteam : team_valid team).
Implicit Types (a b x y z r p v : list D) (n i : Z) (A : CSRMatrix D).

(** A [parallel for] whose iterations commute is the serial loop. *)
Lemma omp_parallel_for_serial {St : Type} n (body : St → Z → St) (s : St) :
  (∀ s i j, body (body s i) j = body (body s j) i) →
  omp_parallel_for team n body s = foldl body s (seqZ 0 n).
Proof using Hteam.
  intros Hcomm. unfold omp_parallel_for.
  by apply foldl_commute_perm.
Qed.

Lemma vector_copy_parallel_serial src dst n :
  vector_copy_parallel team src dst n = vector_copy src dst n.
Proof using Hteam.
  apply omp_parallel_for_serial. intros s i j.
  apply (pointwise_body_commute (λ k _, rd src k)).
Qed.

Lemma vector_axpy_parallel_serial (c : D) x y n :
  vector_axpy_parallel team c x y n = vector_axpy c x y n.
Proof using Hteam.
  apply omp_parallel_for_serial. intros s i j.
  apply (pointwise_body_commute (λ k yk, yk + c * rd x k)%D).
Qed.

Lemma vector_axpby_parallel_serial (c : D) x (d : D) y z n :
  vector_axpby_parallel team c x d y z n = vector_axpby c x d y z n.
Proof using Hteam.
  apply omp_parallel_for_serial. intros s i j.
  apply (pointwise_body_commute (λ k _, c * rd x k + d * rd y k)%D).
Qed.

Lemma fill_ones_parallel_serial r0 n :
  fill_ones_parallel team r0 n = fill_ones r0 n.
Proof using Hteam.
  apply omp_parallel_for_serial. intros s i j.
  apply (pointwise_body_commute (λ _ _, d_one)).
Qed.

Lemma update_p_parallel_serial r (beta omega : D) v p n :
  update_p_parallel team r beta omega v p n = update_p r beta omega v p n.
Proof using Hteam.
  apply omp_parallel_for_serial. intros s i j.
  apply (pointwise_body_commute (λ k pk, rd r k + beta * (pk - omega * rd v k))%D).
Qed.

(** The serial row loop, which accumulates in [y[i]], stores the sum that
    the parallel kernel accumulates in its local [sum]. *)
Lemma matvec_row_row_sum A x i y : matvec_row A x i y = wr y i (row_sum A x i).
Proof using Type.
  unfold matvec_row, row_sum.
  generalize (seqZ (rd (csr_row_ptr A) i)
                   (rd (csr_row_ptr A) (i + 1) - rd (csr_row_ptr A) i)).
  generalize (d_zero : D).
  intros sum js. revert sum. induction js as [|j js IH]; intros sum; simpl; [done|].
  destruct (decide (0 ≤ i ∧ (Z.to_nat i < length y)%nat)) as [[Hi Hlen]|Hout].
  - rewrite rd_wr_eq, wr_wr_eq by done. apply IH.
  - assert (∀ u, wr y i u = y) as Hnoop.
    { intros u. destruct (decide (0 ≤ i)); [|by apply wr_negative].
      apply wr_out_of_range. lia. }
    rewrite !Hnoop. rewrite <- (Hnoop (rd y i + rd (csr_values A) j
                                   * rd x (rd (csr_col_idx A) j))%D) at 1.
    rewrite IH. by rewrite !Hnoop.
Qed.

Lemma matvec_csr_row_sums A x y :
  matvec_csr A x y = foldl (λ y i, wr y i (row_sum A x i)) y (seqZ 0 (csr_n A)).
Proof using Type.
  unfold matvec_csr. apply foldl_same_body. intros. apply matvec_row_row_sum.
Qed.

Lemma matvec_csr_parallel_serial A x y :
  matvec_csr_parallel team A x y = matvec_csr A x y.
Proof using Hteam.
  rewrite matvec_csr_row_sums. apply omp_parallel_for_serial. intros s i j.
  apply (pointwise_body_commute (λ k _, row_sum A x k)).
Qed.
End parallel_kernels.

(** ** Reductions in exact arithmetic *)

Section exact_reductions.
Context {D : Type} `{!Arith D} `{!ExactArith D}.
Implicit Types (a b : list D) (n : Z) (term : Z → D) (sum : D).

(** A running sum started at [sum] is [sum] plus the sum started at zero. *)
Lemma running_sum_shift term (its : list Z) sum :
  foldl (λ sum i, sum + term i)%D sum its
  = (sum + foldl (λ sum i, sum + term i)%D d_zero its)%D.
Proof.
  revert sum. induction its as [|i its IH]; intros sum; simpl.
  - by rewrite add_comm, add_zero_l.
  - rewrite (IH (sum + term i)%D), (IH (d_zero + term i)%D).
    by rewrite add_zero_l, add_assoc.
Qed.

(** Adding the threads' partial sums is one running sum over all their
    iterations. *)
Lemma partial_sums_concat term (chunks : list (list Z)) sum :
  foldl dadd sum ((λ its, foldl (λ sum i, sum + term i)%D d_zero its) <$> chunks)
  = foldl (λ sum i, sum + term i)%D sum (concat chunks).
Proof.
  revert sum. induction chunks as [|its chunks IH]; intros sum; simpl; [done|].
  by rewrite foldl_app, IH, <- running_sum_shift.
Qed.

Lemma running_sum_commute term sum i j :
  ((sum + term i) + term j)%D = ((sum + term j) + term i)%D.
Proof. by rewrite !add_assoc, (add_comm (term i)). Qed.

Lemma omp_reduce_plus_serial team n term sum :
  team_valid team →
  omp_reduce_plus team n term sum = foldl (λ sum i, sum + term i)%D sum (seqZ 0 n).
Proof.
  intros Hteam. unfold omp_reduce_plus. rewrite partial_sums_concat.
  apply foldl_commute_perm; [|done].
  intros. apply running_sum_commute.
Qed.

Lemma dot_product_parallel_serial team a b n :
  team_valid team → dot_product_parallel team a b n = dot_product a b n.
Proof. intros. by apply omp_reduce_plus_serial. Qed.

Lemma vector_norm_parallel_serial team a n :
  team_valid team → vector_norm_parallel team a n = vector_norm a n.
Proof.
  intros. unfold vector_norm_parallel, vector_norm.
  by rewrite dot_product_parallel_serial.
Qed.

End exact_reductions.

(** ** Dot products with the all-ones vector *)

Section one_neutral.
Context {D : Type} `{!Arith D} `{!OneNeutral D}.
Implicit Types (a : list D) (n : Z) (sum : D).

Lemma running_sum_ones (m : nat) a n (its : list Z) sum :
  (Z.to_nat n ≤ m)%nat →
  (∀ i, i ∈ its → 0 ≤ i < n) →
  foldl (λ sum i, sum + rd (replicate m d_one) i * rd a i)%D sum its
  = foldl (λ sum i, sum + rd a i)%D sum its.
Proof.
  intros Hm. revert sum. induction its as [|i its IH]; intros sum Hits; simpl; [done|].
  rewrite IH by (intros; apply Hits; by right).
  assert (0 ≤ i < n) by (apply Hits; left).
  rewrite rd_replicate by lia. by rewrite mul_one_l.
Qed.

(** With the shadow residual all ones, the dot product is the plain sum. *)
Lemma dot_product_ones (m : nat) a n :
  (Z.to_nat n ≤ m)%nat →
  dot_product (replicate m d_one) a n = vector_sum a n.
Proof.
  intros Hm. apply (running_sum_ones m a n); [done|].
  intros i Hi. apply elem_of_seqZ in Hi. lia.
Qed.

Lemma dot_product_parallel_ones team (m : nat) a n :
  team_valid team →
  (Z.to_nat n ≤ m)%nat →
  dot_product_parallel team (replicate m d_one) a n = vector_sum_parallel team a n.
Proof.
  intros Hteam Hm.
  unfold dot_product_parallel, vector_sum_parallel, omp_reduce_plus.
  f_equal. apply list_fmap_ext.
  intros k its Hits. apply (running_sum_ones m a n); [done|].
  intros i Hi.
  assert (i ∈ concat (team n)) as Hin.
  { apply list_elem_of_In, in_concat. exists its.
    split; apply list_elem_of_In; [by apply list_elem_of_lookup_2 in Hits | done]. }
  rewrite (Hteam n) in Hin. apply elem_of_seqZ in Hin. lia.
Qed.
End one_neutral.

(** ** The parallel solver against the serial solver *)

Section parallel_solver.
Context {D : Type} `{!Arith D} `{!ExactArith D}.
Context (team : Team) (Hteam : team_valid team).
Implicit Types (A : CSRMatrix D) (sys : FEMSystem D) (w : Work D) (tol bnorm : D).

Lemma parallel_init_serial sys : parallel_init team sys = serial_init sys.
Proof using Hteam.
  unfold parallel_init, serial_init. cbv zeta.
  by rewrite !vector_copy_parallel_serial, fill_ones_parallel_serial.
Qed.

Lemma parallel_bnorm_serial sys : parallel_bnorm team sys = serial_bnorm sys.
Proof using Hteam ExactArith0.
  unfold parallel_bnorm, serial_bnorm. cbv zeta.
  by rewrite vector_norm_parallel_serial.
Qed.

Lemma parallel_body_serial A n bnorm tol iter w :
  parallel_body team A n bnorm tol iter w = serial_body A n bnorm tol iter w.
Proof using Hteam ExactArith0.
  unfold parallel_body, serial_body. cbv zeta.
  rewrite ?vector_copy_parallel_serial, ?update_p_parallel_serial by done.
  rewrite ?matvec_csr_parallel_serial by done.
  rewrite ?vector_axpby_parallel_serial by done.
  rewrite ?matvec_csr_parallel_serial by done.
  rewrite ?vector_axpby_parallel_serial, ?vector_axpy_parallel_serial by done.
  rewrite ?vector_norm_parallel_serial, ?dot_product_parallel_serial by done.
  reflexivity.
Qed.

Lemma parallel_loop_serial A n bnorm tol todo iter w :
  parallel_loop team A n bnorm tol todo iter w = serial_loop A n bnorm tol todo iter w.
Proof using Hteam ExactArith0.
  revert iter w. induction todo as [|todo IH]; intros iter w; simpl; [done|].
  rewrite parallel_body_serial.
  destruct (serial_body A n bnorm tol iter w); [apply IH | done].
Qed.
End parallel_solver.

(** The block runtime is valid for every number of threads. *)
Lemma block_chunks_perm (more : nat) (lo n : Z) :
  0 ≤ n → concat (block_chunks more lo n) ≡ₚ seqZ lo n.
Proof.
  revert lo n. induction more as [|more IH]; intros lo n Hn; simpl.
  - by rewrite app_nil_r.
  - assert (0 ≤ n / (Z.of_nat more + 2) ≤ n) as Hq.
    { split; [apply Z.div_pos; lia|]. apply Z.div_le_upper_bound; nia. }
    rewrite concat_app, IH by lia. simpl. rewrite app_nil_r.
    rewrite Permutation_app_comm, <- seqZ_app by lia.
    by replace (n / (Z.of_nat more + 2) + (n - n / (Z.of_nat more + 2))) with n by lia.
Qed.

Lemma omp_blocks_valid (num_threads : Z) : team_valid (omp_blocks num_threads).
Proof.
  intros n. unfold omp_blocks. rewrite block_chunks_perm by lia.
  destruct (decide (0 ≤ n)).
  - by rewrite Z.max_r by lia.
  - rewrite Z.max_l by lia. by rewrite (seqZ_nil 0 n) by lia.
Qed.

(** ** The rows of the identity matrix *)

(** Row [i] of the identity contributes the one product [1.0 * x[i]], added
    to [0.0]. *)
Lemma row_sum_identity_cell {D : Type} `{!Arith D} (n : Z) (x : list D) (i : Z) :
  0 ≤ i < n → row_sum (identity_csr n) x i = (d_zero + d_one * rd x i)%D.
Proof.
  intros Hi. unfold row_sum, identity_csr. simpl.
  rewrite !(rd_nonneg (seqZ 0 (n + 1))) by lia.
  rewrite !lookup_total_seqZ_lt by lia.
  replace (0 + Z.of_nat (Z.to_nat (i + 1)) - (0 + Z.of_nat (Z.to_nat i))) with 1 by lia.
  rewrite Z.add_0_l, Z2Nat.id by lia. simpl.
  replace (Z.of_nat 0 + i) with i by lia.
  rewrite rd_replicate, (rd_nonneg (seqZ 0 n)) by lia.
  rewrite lookup_total_seqZ_lt by lia.
  by rewrite Z.add_0_l, Z2Nat.id by lia.
Qed.

(** ** The shadow residual *)

Section shadow_residual.
Context {D : Type} `{!Arith D} `{!OneNeutral D}.

End shadow_residual.

(** In exact arithmetic the reduction gives the sum in index order. *)
Lemma vector_sum_parallel_serial {D : Type} `{!Arith D} `{!ExactArith D}
    (team : Team) (r : list D) (n : Z) :
  team_valid team → vector_sum_parallel team r n = vector_sum r n.
Proof. intros. by apply omp_reduce_plus_serial. Qed.

(** ** Parallel against serial, and the product with the identity *)

Section two_solvers.
Context {D : Type} `{!Arith D} `{!ExactArith D} `{!OneNeutral D}.

(** C6: in exact arithmetic, where the order of a reduction does not matter,
    and with a runtime that runs every iteration of a parallel loop exactly
    once, [bicgstab_parallel] returns what [bicgstab_serial] returns: the
    same iteration count and the same system, [x] included, for every matrix,
    right-hand side, [x], [max_iter], [tol] and number of threads. *)
Theorem parallel_solver_equals_serial (omp : Z → Team) (sys : FEMSystem D)
    (max_iter : Z) (tol : D) (num_threads : Z) :
  team_valid (omp num_threads) →
  bicgstab_parallel omp sys max_iter tol num_threads = bicgstab_serial sys max_iter tol.
Proof using ExactArith0.
  intros Hteam. rewrite bicgstab_parallel_unfold, bicgstab_serial_unfold.
  by rewrite parallel_loop_serial, parallel_bnorm_serial, parallel_init_serial.
Qed.

(** The output of [matvec_csr] is, cell by cell, the row sums; what [y] held
    before plays no part. *)
Lemma matvec_csr_overwrites (A : CSRMatrix D) (x y : list D) :
  length y = Z.to_nat (csr_n A) →
  matvec_csr A x y = row_sum A x <$> seqZ 0 (csr_n A).
Proof using Type.
  intros Hy. rewrite matvec_csr_row_sums. apply list_eq_rd.
  - by rewrite (length_foldl_wr (λ _ i, row_sum A x i)), length_fmap, length_seqZ.
  - intros i Hi Hlen.
    rewrite (length_foldl_wr (λ _ i, row_sum A x i)) in Hlen.
    rewrite (rd_foldl_pointwise (λ k _, row_sum A x k)) by done.
    rewrite decide_True by lia. by rewrite rd_fmap_seqZ by lia.
Qed.

Lemma row_sum_identity (n : Z) (x : list D) (i : Z) :
  0 ≤ i < n → row_sum (identity_csr n) x i = rd x i.
Proof.
  intros Hi. rewrite row_sum_identity_cell by done.
  by rewrite mul_one_l, add_zero_l.
Qed.

End two_solvers.

(** C6 on [real_sym2_system] with four threads of the block runtime. *)
Lemma parallel_solver_equals_serial_witness :
  bicgstab_parallel omp_blocks real_sym2_system 50 (/ 10 ^ 8)%R 4
  = bicgstab_serial real_sym2_system 50 (/ 10 ^ 8)%R.
Proof.
  apply (parallel_solver_equals_serial omp_blocks real_sym2_system 50 (/ 10 ^ 8)%R 4).
  apply omp_blocks_valid.
Defined.



(** In binary64 the product with the identity gives back every cell of [x],
    but for the sign of a negative zero: [0.0 + 1.0 * (-0.0)] is [+0.0]. *)
Lemma matvec_csr_identity_binary64 (n : Z) (x y : list float) (i : Z) :
  length x = Z.to_nat n → length y = Z.to_nat n → 0 ≤ i < n →
  rd (matvec_csr (identity_csr n) x y) i = rd x i
  ∨ (rd x i = (-0)%float ∧ rd (matvec_csr (identity_csr n) x y) i = 0%float).
Proof.
  intros Hx Hy Hi.
  rewrite matvec_csr_row_sums.
  rewrite (rd_foldl_pointwise (λ k _, row_sum (identity_csr n) x k)) by (simpl; lia).
  rewrite decide_True by (simpl; lia).
  rewrite row_sum_identity_cell by done.
  change (d_zero + d_one * rd x i)%D with (0 + 1 * rd x i)%float.
  rewrite float_mul_one_l.
  destruct (PrimFloat.Leibniz.eqb (rd x i) (-0)%float) eqn:Hz.
  - apply FloatAxioms.Leibniz.eqb_spec in Hz. right. split; [done|]. by rewrite Hz.
  - left. apply float_add_zero_l. intros Heq.
    apply FloatAxioms.Leibniz.eqb_spec in Heq. congruence.
Qed.

(** ** The assembly of the grid system *)

Section assembly_facts.
Context {D : Type} `{!Arith D}.
Implicit Types (a : Assembly D) (es : list (Z * D)) (nx ny i j k : Z) (ke kn kw : D).

(** A node's pass stores its entries, then its right-hand side, then closes
    its row. *)
Lemma assemble_node_entries nx ny ke kn kw i j a :
  assemble_node nx ny ke kn kw i j a
  = close_row (get_node_number i j nx)
      (set_rhs (get_node_number i j nx) (node_rhs nx ny i j)
         (push_entries (node_entries nx ny ke kn kw i j) a)).
Proof.
  unfold assemble_node, node_entries, node_rhs.
  destruct (0 <? get_boundary_type i j nx ny).
  - by destruct (get_boundary_type i j nx ny =? 3).
  - by destruct (0 <? j), (0 <? i), (i <? ny - 1), (j <? nx - 1).
Qed.

Lemma node_entries_length nx ny ke kn kw i j :
  (1 ≤ length (node_entries nx ny ke kn kw i j) ≤ 5)%nat.
Proof.
  unfold node_entries.
  destruct (0 <? get_boundary_type i j nx ny); [simpl; lia|].
  destruct (0 <? j), (0 <? i), (i <? ny - 1), (j <? nx - 1); simpl; lia.
Qed.

Lemma node_in_grid nx ny i j :
  0 ≤ i < ny → 0 ≤ j < nx → 0 ≤ get_node_number i j nx < nx * ny.
Proof. unfold get_node_number. nia. Qed.

(** Every entry of a grid node lies in a column of the matrix. *)
Lemma node_entries_columns_all nx ny ke kn kw i j :
  0 ≤ i < ny → 0 ≤ j < nx →
  Forall (λ e, 0 ≤ e.1 < nx * ny) (node_entries nx ny ke kn kw i j).
Proof.
  intros Hi Hj. unfold node_entries.
  destruct (0 <? get_boundary_type i j nx ny).
  { apply Forall_singleton. by apply node_in_grid. }
  repeat apply Forall_app_2.
  - destruct (0 <? j) eqn:H; [|done]. apply Z.ltb_lt in H.
    apply Forall_singleton, node_in_grid; lia.
  - destruct (0 <? i) eqn:H; [|done]. apply Z.ltb_lt in H.
    apply Forall_singleton, node_in_grid; lia.
  - apply Forall_singleton. by apply node_in_grid.
  - destruct (i <? ny - 1) eqn:H; [|done]. apply Z.ltb_lt in H.
    apply Forall_singleton, node_in_grid; lia.
  - destruct (j <? nx - 1) eqn:H; [|done]. apply Z.ltb_lt in H.
    apply Forall_singleton, node_in_grid; lia.
Qed.

Lemma node_entries_columns nx ny ke kn kw i j t :
  0 ≤ i < ny → 0 ≤ j < nx →
  0 ≤ t < Z.of_nat (length (node_entries nx ny ke kn kw i j)) →
  0 ≤ (rd (node_entries nx ny ke kn kw i j) t).1 < nx * ny.
Proof.
  intros Hi Hj Ht. rewrite rd_nonneg by lia.
  apply (Forall_lookup_total_1 (λ e, 0 ≤ e.1 < nx * ny)).
  - by apply node_entries_columns_all.
  - lia.
Qed.

Lemma rd_cons_succ {T : Type} `{!Inhabited T} (v : T) (l : list T) (t : Z) :
  1 ≤ t → rd (v :: l) t = rd l (t - 1).
Proof.
  intros Ht. rewrite !rd_nonneg by lia.
  by replace (Z.to_nat t) with (S (Z.to_nat (t - 1))) by lia.
Qed.

(** The effect of storing the entries [es]: they fill the cells from
    [nnz_count] on, and the cells before are untouched. *)
Lemma push_entries_spec es a :
  0 ≤ nnz_count a →
  (Z.to_nat (nnz_count a) + length es ≤ length (temp_col a))%nat →
  (Z.to_nat (nnz_count a) + length es ≤ length (temp_values a))%nat →
  nnz_count (push_entries es a) = nnz_count a + Z.of_nat (length es)
  ∧ temp_row (push_entries es a) = temp_row a
  ∧ asm_b (push_entries es a) = asm_b a
  ∧ length (temp_col (push_entries es a)) = length (temp_col a)
  ∧ length (temp_values (push_entries es a)) = length (temp_values a)
  ∧ (∀ q, 0 ≤ q < nnz_count a →
       rd (temp_col (push_entries es a)) q = rd (temp_col a) q
       ∧ rd (temp_values (push_entries es a)) q = rd (temp_values a) q)
  ∧ (∀ t, 0 ≤ t < Z.of_nat (length es) →
       (rd (temp_col (push_entries es a)) (nnz_count a + t),
        rd (temp_values (push_entries es a)) (nnz_count a + t))
       = rd es t).
Proof.
  revert a. induction es as [|[col val] es IH]; intros a Hnnz Hcol Hval.
  - simpl. repeat split; try done; [lia | intros; lia].
  - simpl in Hcol, Hval.
    destruct (IH (push_entry val col a)) as (Hn & Hrow & Hb & Hlc & Hlv & Hold & Hnew);
      [simpl; rewrite ?length_wr; lia..|].
    change (push_entries ((col, val) :: es) a)
      with (push_entries es (push_entry val col a)).
    simpl in Hn, Hrow, Hb, Hlc, Hlv, Hold, Hnew.
    rewrite length_wr in Hlc. rewrite length_wr in Hlv.
    repeat split; try done.
    + rewrite Hn. simpl length. lia.
    + destruct (Hold q) as [-> _]; [lia|]. apply rd_wr_ne; lia.
    + destruct (Hold q) as [_ ->]; [lia|]. apply rd_wr_ne; lia.
    + intros t Ht. simpl length in Ht. destruct (decide (t = 0)) as [->|Hne].
      * rewrite Z.add_0_r. destruct (Hold (nnz_count a)) as [-> ->]; [lia|].
        by rewrite !rd_wr_eq by lia.
      * rewrite rd_cons_succ by lia. rewrite <- Hnew by lia.
        by replace (nnz_count a + 1 + (t - 1)) with (nnz_count a + t) by lia.
Qed.

Lemma node_number_inj nx i j i' j' :
  0 ≤ j < nx → 0 ≤ j' < nx → i * nx + j = i' * nx + j' → i = i' ∧ j = j'.
Proof.
  intros Hj Hj' Heq.
  assert (i = i') as -> by nia. split; [done | lia].
Qed.

Lemma assembly_start_invariant nx ny ke kn kw :
  0 ≤ nx * ny → assembly_invariant nx ny ke kn kw 0 (assembly_start nx ny).
Proof.
  intros Hn. unfold assembly_invariant, assembly_start. simpl.
  rewrite length_wr, !length_replicate.
  assert (rd (wr (replicate (Z.to_nat (nx * ny + 1)) 0) 0 0) 0 = 0) as Hrow0.
  { apply rd_wr_eq; [done|]. rewrite length_replicate. lia. }
  repeat split; try done; intros; (lia || nia).
Qed.

(** Assembling node [(i, j)], whose number is [i * nx + j], extends the
    invariant by one node. *)
Lemma assemble_node_invariant nx ny ke kn kw i j a :
  0 ≤ i < ny → 0 ≤ j < nx →
  assembly_invariant nx ny ke kn kw (i * nx + j) a →
  assembly_invariant nx ny ke kn kw (i * nx + j + 1) (assemble_node nx ny ke kn kw i j a).
Proof.
  intros Hi Hj ((Hlv & Hlc & Hlr) & Hcount & Hrow0 & Hrowk & Hmono & Hcols & Hent).
  rewrite assemble_node_entries.
  pose proof (node_entries_length nx ny ke kn kw i j) as Hes.
  pose proof (node_entries_columns nx ny ke kn kw i j) as Hescol.
  pose proof (node_in_grid nx ny i j Hi Hj) as Hnode.
  unfold get_node_number in *.
  destruct (push_entries_spec (node_entries nx ny ke kn kw i j) a)
    as (Hn & Hr & Hb & Hlc' & Hlv' & Hold & Hnew); [lia..|].
  unfold assembly_invariant. simpl. rewrite Hr, Hn.
  set (k := i * nx + j) in *.
  set (len := Z.of_nat (length (node_entries nx ny ke kn kw i j))) in *.
  assert (∀ v m, 0 ≤ m ≤ k → rd (wr (temp_row a) (k + 1) v) m = rd (temp_row a) m)
    as Hrd_old by (intros; apply rd_wr_ne; lia).
  assert (∀ v, rd (wr (temp_row a) (k + 1) v) (k + 1) = v)
    as Hrd_new by (intros; apply rd_wr_eq; lia).
  split; [|split; [|split; [|split; [|split; [|split]]]]].
  - rewrite Hlv', Hlc', length_wr. done.
  - lia.
  - by rewrite Hrd_old by lia.
  - apply Hrd_new.
  - intros m Hm. rewrite Hrd_old by lia.
    destruct (decide (m = k)) as [->|Hne].
    + rewrite Hrd_new, Hrowk. lia.
    + rewrite Hrd_old by lia. specialize (Hmono m). lia.
  - intros q Hq. destruct (decide (q < nnz_count a)) as [Hlt|Hge].
    + destruct (Hold q) as [-> _]; [lia|]. apply Hcols. lia.
    + specialize (Hnew (q - nnz_count a)). specialize (Hescol (q - nnz_count a)).
      replace (nnz_count a + (q - nnz_count a)) with q in Hnew by lia.
      rewrite <- Hnew in Hescol by lia. simpl in Hescol. apply Hescol; lia.
  - intros i' j' Hi' Hj' Hlt.
    destruct (decide (i' * nx + j' = k)) as [Heq|Hne].
    + destruct (node_number_inj nx i' j' i j) as [-> ->]; [done..|].
      fold k. rewrite Hrd_new, Hrd_old, Hrowk by lia. split; [done|].
      intros t Ht. by apply Hnew.
    + destruct (Hent i' j') as [Hrows Hes']; [lia..|].
      assert (0 ≤ i' * nx + j') by nia.
      specialize (Hmono (i' * nx + j')).
      rewrite !Hrd_old by lia. split; [done|].
      intros t Ht. rewrite <- Hes' by done.
      destruct (Hold (rd (temp_row a) (i' * nx + j') + t)) as [-> ->]; [lia|done].
Qed.

Lemma length_copy_prefix {T : Type} `{!Inhabited T} (src dst : list T) (n : Z) :
  length (copy_prefix src dst n) = length dst.
Proof. apply (length_foldl_wr (λ _ i, rd src i)). Qed.

Lemma rd_copy_prefix {T : Type} `{!Inhabited T} (src dst : list T) (n q : Z) :
  0 ≤ q < n → (Z.to_nat q < length dst)%nat → rd (copy_prefix src dst n) q = rd src q.
Proof.
  intros Hq Hlen. unfold copy_prefix.
  rewrite (rd_foldl_pointwise (λ k _, rd src k)) by (done || lia).
  by rewrite decide_True by lia.
Qed.

(** The double loop establishes the invariant for all [nx * ny] nodes. *)
Lemma assemble_invariant nx ny :
  0 ≤ nx → 0 ≤ ny →
  assembly_invariant nx ny (stiffness_ke nx ny) (stiffness_kn nx ny) (stiffness_kw nx ny)
                     (nx * ny) (assemble nx ny).
Proof.
  intros Hnx Hny.
  set (Inv := assembly_invariant nx ny (stiffness_ke nx ny) (stiffness_kn nx ny)
                                 (stiffness_kw nx ny)).
  assert (Inv (0 * nx + ny * nx) (assemble nx ny)) as Hall.
  { unfold assemble.
    apply (foldl_seqZ_invariant (λ i a, Inv (i * nx) a)
             (λ a i, assemble_grid_row nx ny i a) 0 ny); [done| |].
    - apply assembly_start_invariant. nia.
    - intros i a Hi Ha. unfold assemble_grid_row.
      replace ((i + 1) * nx) with (i * nx + (0 + nx)) by lia.
      apply (foldl_seqZ_invariant (λ j a, Inv (i * nx + j) a)
               (λ a j, assemble_node nx ny (stiffness_ke nx ny) (stiffness_kn nx ny)
                                     (stiffness_kw nx ny) i j a) 0 nx); [done| |].
      + by rewrite Z.add_0_r.
      + intros j a' Hj Ha'. rewrite Z.add_assoc.
        apply assemble_node_invariant; (done || lia). }
  by replace (0 * nx + ny * nx) with (nx * ny) in Hall by lia.
Qed.

Lemma create_fem_system_matrix nx ny :
  sys_A (create_fem_system (D:=D) nx ny)
  = {| csr_n := nx * ny;
       csr_nnz := nnz_count (assemble nx ny);
       csr_values := copy_prefix (temp_values (assemble nx ny))
                       (malloc (nnz_count (assemble nx ny))) (nnz_count (assemble nx ny));
       csr_col_idx := copy_prefix (temp_col (assemble nx ny))
                        (replicate (Z.to_nat (nnz_count (assemble nx ny))) 0)
                        (nnz_count (assemble nx ny));
       csr_row_ptr := copy_prefix (temp_row (assemble nx ny))
                        (replicate (Z.to_nat (nx * ny + 1)) 0) (nx * ny + 1) |}.
Proof. reflexivity. Qed.

End assembly_facts.


(** * Further properties *)

(** ** More laws in binary64 and in the reals *)

#[export] Instance float_zero_sum : ZeroSum float.
Proof. split. reflexivity. Qed.

#[export] Instance real_zero_sum : ZeroSum R.
Proof. split. change (0 + 0 = 0)%R. lra. Qed.

(** ** The ways out of the loop of [bicgstab_serial] *)

Section serial_exits.
Context {D : Type} `{!Arith D}.
Implicit Types (A : CSRMatrix D) (sys : FEMSystem D) (w : Work D) (tol bnorm : D).

Lemma serial_body_second_check_x A n bnorm tol iter w :
  rho_breakdown n w = false → first_check A n bnorm tol iter w = false →
  second_check A n bnorm tol iter w = true →
  ∃ w', serial_body A n bnorm tol iter w = Break (iter + 1) w' ∧ w_x w' = body_x A n iter w.
Proof.
  unfold rho_breakdown, first_check, second_check, body_x, body_r,
    body_omega, body_t, body_s, body_alpha, body_v, body_p, body_rho, serial_body.
  intros -> -> ->. by eexists.
Qed.

Lemma serial_body_omega_breakdown A n bnorm tol iter w :
  rho_breakdown n w = false → first_check A n bnorm tol iter w = false →
  second_check A n bnorm tol iter w = false →
  omega_breakdown A n iter w = true →
  ∃ w', serial_body A n bnorm tol iter w = Break iter w' ∧ w_x w' = body_x A n iter w.
Proof.
  unfold rho_breakdown, first_check, second_check, omega_breakdown, body_x, body_r,
    body_omega, body_t, body_s, body_alpha, body_v, body_p, body_rho, serial_body.
  intros -> -> -> ->. by eexists.
Qed.

(** What the call returns when the second convergence check passes at loop
    index [k], with the [x] it leaves. *)
Lemma serial_second_check_result sys max_iter tol (k : nat) w :
  serial_at sys tol k = Some w →
  Z.of_nat k < max_iter →
  rho_breakdown (sys_n sys) w = false →
  first_check (sys_A sys) (sys_n sys) (serial_bnorm sys) tol (Z.of_nat k) w = false →
  second_check (sys_A sys) (sys_n sys) (serial_bnorm sys) tol (Z.of_nat k) w = true →
  bicgstab_serial sys max_iter tol
  = (if decide (Z.of_nat k + 1 = max_iter) then failure_sentinel else Z.of_nat k + 1,
     with_x sys (body_x (sys_A sys) (sys_n sys) (Z.of_nat k) w)).
Proof.
  intros Hreach Hk Hrho H1 H2.
  rewrite bicgstab_serial_unfold.
  rewrite (serial_loop_resume _ _ _ _ k _ _ w Hreach) by lia.
  replace (Z.to_nat max_iter - k)%nat with (S (Z.to_nat max_iter - S k)) by lia.
  destruct (serial_body_second_check_x _ _ (serial_bnorm sys) tol _ _ Hrho H1 H2)
    as (w' & Hbody & Hx).
  simpl. rewrite Hbody. simpl. rewrite Hx. unfold solver_result.
  case_decide.
  - by rewrite (proj2 (Z.leb_le _ _)) by lia.
  - by rewrite (proj2 (Z.leb_gt _ _)) by lia.
Qed.

(** X1: when the first convergence check passes at a loop index [k] the run
    reaches, the call returns [k], the index itself, and leaves [x] advanced
    by [alpha * p]; this for every system, tolerance and [max_iter > k]. *)
Theorem first_check_exit sys max_iter tol (k : nat) w :
  serial_at sys tol k = Some w →
  Z.of_nat k < max_iter →
  rho_breakdown (sys_n sys) w = false →
  first_check (sys_A sys) (sys_n sys) (serial_bnorm sys) tol (Z.of_nat k) w = true →
  bicgstab_serial sys max_iter tol =
  (Z.of_nat k,
   with_x sys (vector_axpy (body_alpha (sys_A sys) (sys_n sys) (Z.of_nat k) w)
                           (body_p (sys_n sys) (Z.of_nat k) w) (w_x w) (sys_n sys))).
Proof. apply first_check_returns_index. Qed.

(** X2: when the second convergence check passes at a loop index [k] the run
    reaches, the call leaves [x] advanced by [alpha * p + omega * s] and
    returns [k + 1], unless [k] is the last index [max_iter - 1]: then it
    returns the failure sentinel. *)
Theorem second_check_exit sys max_iter tol (k : nat) w :
  serial_at sys tol k = Some w →
  Z.of_nat k < max_iter →
  rho_breakdown (sys_n sys) w = false →
  first_check (sys_A sys) (sys_n sys) (serial_bnorm sys) tol (Z.of_nat k) w = false →
  second_check (sys_A sys) (sys_n sys) (serial_bnorm sys) tol (Z.of_nat k) w = true →
  bicgstab_serial sys max_iter tol
  = (if decide (Z.of_nat k + 1 = max_iter) then failure_sentinel else Z.of_nat k + 1,
     with_x sys (body_x (sys_A sys) (sys_n sys) (Z.of_nat k) w)).
Proof. apply serial_second_check_result. Qed.

(** X3: when [fabs(omega) < 1e-30] holds at a loop index [k] the run reaches,
    no convergence check having passed there, the call returns [k] and leaves
    [x] advanced by [alpha * p + omega * s]. *)
Theorem omega_breakdown_returns_index sys max_iter tol (k : nat) w :
  serial_at sys tol k = Some w →
  Z.of_nat k < max_iter →
  rho_breakdown (sys_n sys) w = false →
  first_check (sys_A sys) (sys_n sys) (serial_bnorm sys) tol (Z.of_nat k) w = false →
  second_check (sys_A sys) (sys_n sys) (serial_bnorm sys) tol (Z.of_nat k) w = false →
  omega_breakdown (sys_A sys) (sys_n sys) (Z.of_nat k) w = true →
  bicgstab_serial sys max_iter tol
  = (Z.of_nat k, with_x sys (body_x (sys_A sys) (sys_n sys) (Z.of_nat k) w)).
Proof.
  intros Hreach Hk Hrho H1 H2 Hom.
  rewrite bicgstab_serial_unfold.
  rewrite (serial_loop_resume _ _ _ _ k _ _ w Hreach) by lia.
  replace (Z.to_nat max_iter - k)%nat with (S (Z.to_nat max_iter - S k)) by lia.
  destruct (serial_body_omega_breakdown _ _ (serial_bnorm sys) tol _ _ Hrho H1 H2 Hom)
    as (w' & Hbody & Hx).
  simpl. rewrite Hbody. simpl. rewrite Hx.
  unfold solver_result. by rewrite (proj2 (Z.leb_gt _ _)) by lia.
Qed.

(** X4: when all [max_iter] passes fall through to [iter++], the call
    returns the failure sentinel and leaves in [x] what the passes
    accumulated. *)
Theorem exhaustion_returns_sentinel sys max_iter tol w :
  serial_at sys tol (Z.to_nat max_iter) = Some w →
  bicgstab_serial sys max_iter tol = (failure_sentinel, with_x sys (w_x w)).
Proof.
  intros Hreach. rewrite bicgstab_serial_unfold.
  rewrite (serial_loop_resume _ _ _ _ (Z.to_nat max_iter) _ _ w Hreach) by lia.
  rewrite Nat.sub_diag. simpl.
  unfold solver_result. by rewrite (proj2 (Z.leb_le _ _)) by lia.
Qed.

(** Which tests a pass of the body has passed when it leaves the loop, and
    that it has passed none when it goes on. *)
Lemma serial_body_cases A n bnorm tol iter w :
  match serial_body A n bnorm tol iter w with
  | Next _ =>
      rho_breakdown n w = false ∧ first_check A n bnorm tol iter w = false
      ∧ second_check A n bnorm tol iter w = false ∧ omega_breakdown A n iter w = false
  | Break _ _ =>
      rho_breakdown n w = true
      ∨ (rho_breakdown n w = false ∧ first_check A n bnorm tol iter w = true)
      ∨ (rho_breakdown n w = false ∧ first_check A n bnorm tol iter w = false
         ∧ second_check A n bnorm tol iter w = true)
      ∨ (rho_breakdown n w = false ∧ first_check A n bnorm tol iter w = false
         ∧ second_check A n bnorm tol iter w = false ∧ omega_breakdown A n iter w = true)
  end.
Proof.
  unfold rho_breakdown, first_check, second_check, omega_breakdown, body_r,
    body_omega, body_t, body_s, body_alpha, body_v, body_p, body_rho, serial_body.
  destruct (dlt (dfabs _) d_tiny); [by left|].
  destruct (dlt _ tol); [right; by left|].
  destruct (dlt _ tol); [right; right; by left|].
  destruct (dlt (dfabs _) d_tiny); [by repeat right | done].
Qed.

(** Either all of [todo] passes go on, or one of them leaves the loop. *)
Lemma serial_reach_or_break A n bnorm tol (todo : nat) w0 :
  (∃ w, serial_reach A n bnorm tol todo w0 = Some w)
  ∨ (∃ (k : nat) w iter' w', (k < todo)%nat ∧ serial_reach A n bnorm tol k w0 = Some w
       ∧ serial_body A n bnorm tol (Z.of_nat k) w = Break iter' w').
Proof.
  induction todo as [|todo IH].
  - left. by eexists.
  - destruct IH as [[w Hw]|(k & w & iter' & w' & Hk & Hw & Hbody)].
    + destruct (serial_body A n bnorm tol (Z.of_nat todo) w) as [w'|iter' w'] eqn:Hbody.
      * left. exists w'. simpl. by rewrite Hw, Hbody.
      * right. exists todo, w, iter', w'. split; [lia | done].
    + right. exists k, w, iter', w'. split; [lia | done].
Qed.

(** X5: every call of [bicgstab_serial] ends in one of five ways: all
    [max_iter] passes go on to [iter++], or at some loop index [k < max_iter]
    the pass leaves the loop at the first test it passes, of [rho] breakdown,
    the first convergence check, the second convergence check and [omega]
    breakdown, in this order. *)
Theorem serial_exits_exhaustive sys max_iter tol :
  (∃ w, serial_at sys tol (Z.to_nat max_iter) = Some w)
  ∨ (∃ (k : nat) w,
       Z.of_nat k < max_iter ∧ serial_at sys tol k = Some w
       ∧ (rho_breakdown (sys_n sys) w = true
          ∨ (rho_breakdown (sys_n sys) w = false
             ∧ first_check (sys_A sys) (sys_n sys) (serial_bnorm sys) tol (Z.of_nat k) w = true)
          ∨ (rho_breakdown (sys_n sys) w = false
             ∧ first_check (sys_A sys) (sys_n sys) (serial_bnorm sys) tol (Z.of_nat k) w
               = false
             ∧ second_check (sys_A sys) (sys_n sys) (serial_bnorm sys) tol (Z.of_nat k) w
               = true)
          ∨ (rho_breakdown (sys_n sys) w = false
             ∧ first_check (sys_A sys) (sys_n sys) (serial_bnorm sys) tol (Z.of_nat k) w
               = false
             ∧ second_check (sys_A sys) (sys_n sys) (serial_bnorm sys) tol (Z.of_nat k) w
               = false
             ∧ omega_breakdown (sys_A sys) (sys_n sys) (Z.of_nat k) w = true))).
Proof.
  unfold serial_at.
  destruct (serial_reach_or_break (sys_A sys) (sys_n sys) (serial_bnorm sys) tol
              (Z.to_nat max_iter) (serial_init sys))
    as [Hall|(k & w & iter' & w' & Hk & Hw & Hbody)]; [by left|].
  right. exists k, w. split; [lia|]. split; [done|].
  pose proof (serial_body_cases (sys_A sys) (sys_n sys) (serial_bnorm sys) tol
                (Z.of_nat k) w) as Hcases.
  by rewrite Hbody in Hcases.
Qed.

(** What the call returns when the pass at a loop index the run reaches
    leaves the loop. *)
Lemma serial_break_result sys max_iter tol (k : nat) w iter' w' :
  serial_at sys tol k = Some w →
  Z.of_nat k < max_iter →
  serial_body (sys_A sys) (sys_n sys) (serial_bnorm sys) tol (Z.of_nat k) w = Break iter' w' →
  bicgstab_serial sys max_iter tol = (solver_result iter' max_iter, with_x sys (w_x w')).
Proof.
  intros Hreach Hk Hbody. rewrite bicgstab_serial_unfold.
  rewrite (serial_loop_resume _ _ _ _ k _ _ w Hreach) by lia.
  replace (Z.to_nat max_iter - k)%nat with (S (Z.to_nat max_iter - S k)) by lia.
  simpl. by rewrite Hbody.
Qed.

(** Only the second convergence check leaves the loop with [iter + 1]. *)
Lemma serial_body_break_next A n bnorm tol iter w w' :
  serial_body A n bnorm tol iter w = Break (iter + 1) w' →
  rho_breakdown n w = false ∧ first_check A n bnorm tol iter w = false
  ∧ second_check A n bnorm tol iter w = true.
Proof.
  unfold rho_breakdown, first_check, second_check, body_r,
    body_omega, body_t, body_s, body_alpha, body_v, body_p, body_rho, serial_body.
  destruct (dlt (dfabs _) d_tiny); [intros [= ? _]; lia|].
  destruct (dlt _ tol); [intros [= ? _]; lia|].
  destruct (dlt _ tol); [done|].
  destruct (dlt (dfabs _) d_tiny); [intros [= ? _]; lia | done].
Qed.

(** X6: [bicgstab_serial] returns the failure sentinel in exactly two
    situations: all [max_iter] passes went on to [iter++], or the second
    convergence check passed at the last loop index [max_iter - 1]. *)
Theorem sentinel_iff sys max_iter tol :
  fst (bicgstab_serial sys max_iter tol) = failure_sentinel
  ↔ (∃ w, serial_at sys tol (Z.to_nat max_iter) = Some w)
    ∨ (∃ (k : nat) w,
         Z.of_nat k + 1 = max_iter ∧ serial_at sys tol k = Some w
         ∧ rho_breakdown (sys_n sys) w = false
         ∧ first_check (sys_A sys) (sys_n sys) (serial_bnorm sys) tol (Z.of_nat k) w = false
         ∧ second_check (sys_A sys) (sys_n sys) (serial_bnorm sys) tol (Z.of_nat k) w = true).
Proof.
  split.
  - intros Hres.
    destruct (serial_reach_or_break (sys_A sys) (sys_n sys) (serial_bnorm sys) tol
                (Z.to_nat max_iter) (serial_init sys))
      as [Hall|(k & w & iter' & w' & Hk & Hw & Hbody)]; [by left|].
    right. exists k, w.
    rewrite (serial_break_result sys max_iter tol k w iter' w') in Hres by (done || lia).
    pose proof (serial_body_break_index _ _ _ _ _ _ _ _ Hbody) as Hiter.
    unfold solver_result, failure_sentinel in Hres. simpl in Hres.
    destruct (max_iter <=? iter') eqn:Hle; [|lia]. apply Z.leb_le in Hle.
    assert (iter' = Z.of_nat k + 1) as -> by lia.
    split; [lia|]. split; [done|]. by eapply serial_body_break_next.
  - intros [[w Hw]|(k & w & Hk & Hw & Hrho & H1 & H2)].
    + rewrite bicgstab_serial_unfold.
      rewrite (serial_loop_resume _ _ _ _ (Z.to_nat max_iter) _ _ w Hw) by lia.
      rewrite Nat.sub_diag. simpl.
      unfold solver_result. by rewrite (proj2 (Z.leb_le _ _)) by lia.
    + destruct (serial_body_second_check _ _ (serial_bnorm sys) tol _ _ Hrho H1 H2)
        as (w' & Hbody).
      rewrite (serial_break_result sys max_iter tol k w _ w') by (done || lia).
      simpl. unfold solver_result. by rewrite (proj2 (Z.leb_le _ _)) by lia.
Qed.
(** ** The value returned *)

Lemma parallel_body_break_index team A n bnorm tol iter w iter' w' :
  parallel_body team A n bnorm tol iter w = Break iter' w' → iter' = iter ∨ iter' = iter + 1.
Proof.
  unfold parallel_body. repeat case_match; intros [= <- <-]; auto.
Qed.

Lemma parallel_loop_index_range team A n bnorm tol todo iter w :
  iter ≤ fst (parallel_loop team A n bnorm tol todo iter w) ≤ iter + Z.of_nat todo.
Proof.
  revert iter w. induction todo as [|todo IH]; intros iter w; simpl; [lia|].
  destruct (parallel_body team A n bnorm tol iter w) as [w'|iter' w'] eqn:Hbody.
  - specialize (IH (iter + 1) w'). lia.
  - apply parallel_body_break_index in Hbody. simpl. lia.
Qed.

Lemma solver_result_range iter max_iter :
  0 ≤ iter →
  solver_result iter max_iter = failure_sentinel ∨ 0 ≤ solver_result iter max_iter < max_iter.
Proof.
  intros Hiter. unfold solver_result. destruct (max_iter <=? iter) eqn:H; [by left|].
  apply Z.leb_gt in H. right. lia.
Qed.

(** X7: the value a solver returns is the failure sentinel -1 or a count
    from 0 to [max_iter - 1]; the count [max_iter] is never returned.  This
    holds of [bicgstab_serial] and of [bicgstab_parallel], on every input. *)
Theorem return_value_range omp sys max_iter tol num_threads :
  (fst (bicgstab_serial sys max_iter tol) = failure_sentinel
   ∨ 0 ≤ fst (bicgstab_serial sys max_iter tol) < max_iter)
  ∧ (fst (bicgstab_parallel omp sys max_iter tol num_threads) = failure_sentinel
     ∨ 0 ≤ fst (bicgstab_parallel omp sys max_iter tol num_threads) < max_iter).
Proof.
  rewrite bicgstab_serial_unfold, bicgstab_parallel_unfold. simpl. split.
  - apply solver_result_range. apply serial_loop_index_range.
  - apply solver_result_range. apply parallel_loop_index_range.
Qed.

(** A loop that leaves before its bound does the same under any larger
    bound. *)
Lemma serial_loop_more A n bnorm tol (todo todo' : nat) iter w :
  (todo ≤ todo')%nat →
  fst (serial_loop A n bnorm tol todo iter w) < iter + Z.of_nat todo →
  serial_loop A n bnorm tol todo' iter w = serial_loop A n bnorm tol todo iter w.
Proof.
  revert todo' iter w. induction todo as [|todo IH]; intros todo' iter w Hle Hlt.
  - simpl in Hlt. lia.
  - destruct todo' as [|todo']; [lia|]. simpl in *.
    destruct (serial_body A n bnorm tol iter w) as [w'|iter' w']; [|done].
    apply IH; lia.
Qed.

Lemma parallel_loop_more team A n bnorm tol (todo todo' : nat) iter w :
  (todo ≤ todo')%nat →
  fst (parallel_loop team A n bnorm tol todo iter w) < iter + Z.of_nat todo →
  parallel_loop team A n bnorm tol todo' iter w = parallel_loop team A n bnorm tol todo iter w.
Proof.
  revert todo' iter w. induction todo as [|todo IH]; intros todo' iter w Hle Hlt.
  - simpl in Hlt. lia.
  - destruct todo' as [|todo']; [lia|]. simpl in *.
    destruct (parallel_body team A n bnorm tol iter w) as [w'|iter' w']; [|done].
    apply IH; lia.
Qed.

Lemma solver_result_not_sentinel iter max_iter max_iter' :
  0 ≤ iter → max_iter ≤ max_iter' →
  solver_result iter max_iter ≠ failure_sentinel →
  iter < max_iter ∧ solver_result iter max_iter' = solver_result iter max_iter.
Proof.
  unfold solver_result. intros Hiter Hle Hres.
  destruct (max_iter <=? iter) eqn:H; [done|]. apply Z.leb_gt in H.
  split; [done|]. by rewrite (proj2 (Z.leb_gt _ _)) by lia.
Qed.

Lemma serial_max_iter_cap sys max_iter max_iter' tol :
  max_iter ≤ max_iter' →
  fst (bicgstab_serial sys max_iter tol) ≠ failure_sentinel →
  bicgstab_serial sys max_iter' tol = bicgstab_serial sys max_iter tol.
Proof.
  intros Hle. rewrite !bicgstab_serial_unfold. cbn [fst]. intros Hres.
  pose proof (serial_loop_index_range (sys_A sys) (sys_n sys) (serial_bnorm sys) tol
                (Z.to_nat max_iter) 0 (serial_init sys)) as Hrange.
  destruct (solver_result_not_sentinel _ max_iter max_iter' (proj1 Hrange) Hle Hres)
    as [Hlt Hsame].
  rewrite (serial_loop_more _ _ _ _ (Z.to_nat max_iter) (Z.to_nat max_iter')) by lia.
  by rewrite Hsame.
Qed.

Lemma parallel_max_iter_cap omp sys max_iter max_iter' tol num_threads :
  max_iter ≤ max_iter' →
  fst (bicgstab_parallel omp sys max_iter tol num_threads) ≠ failure_sentinel →
  bicgstab_parallel omp sys max_iter' tol num_threads
  = bicgstab_parallel omp sys max_iter tol num_threads.
Proof.
  intros Hle. rewrite !bicgstab_parallel_unfold. cbn [fst]. intros Hres.
  pose proof (parallel_loop_index_range (omp num_threads) (sys_A sys) (sys_n sys)
                (parallel_bnorm (omp num_threads) sys) tol
                (Z.to_nat max_iter) 0 (parallel_init (omp num_threads) sys)) as Hrange.
  destruct (solver_result_not_sentinel _ max_iter max_iter' (proj1 Hrange) Hle Hres)
    as [Hlt Hsame].
  rewrite (parallel_loop_more _ _ _ _ _ (Z.to_nat max_iter) (Z.to_nat max_iter')) by lia.
  by rewrite Hsame.
Qed.

(** X8: [max_iter] is only a cap: a call that does not return the failure
    sentinel returns the same count and the same [x] under every larger
    [max_iter].  This holds of both solvers. *)
Theorem max_iter_is_only_a_cap omp sys max_iter max_iter' tol num_threads :
  max_iter ≤ max_iter' →
  (fst (bicgstab_serial sys max_iter tol) ≠ failure_sentinel →
   bicgstab_serial sys max_iter' tol = bicgstab_serial sys max_iter tol)
  ∧ (fst (bicgstab_parallel omp sys max_iter tol num_threads) ≠ failure_sentinel →
     bicgstab_parallel omp sys max_iter' tol num_threads
     = bicgstab_parallel omp sys max_iter tol num_threads).
Proof.
  intros Hle. split.
  - by apply serial_max_iter_cap.
  - by apply parallel_max_iter_cap.
Qed.
End serial_exits.

(** ** The working vectors are written before they are read *)

Section overwriting_kernels.
Context {D : Type} `{!Arith D}.
Implicit Types (a b x y z r p v : list D) (n i : Z).

(** A loop that stores a value depending on the index alone in each of the
    [n] cells of a buffer of [n] cells overwrites the buffer. *)
Lemma foldl_wr_overwrites {T : Type} `{!Inhabited T} (g : Z → T) (bf : list T) n :
  length bf = Z.to_nat n →
  foldl (λ bf k, wr bf k (g k)) bf (seqZ 0 n) = g <$> seqZ 0 n.
Proof.
  intros Hlen. apply list_eq_rd.
  - by rewrite (length_foldl_wr (λ _ k, g k)), length_fmap, length_seqZ.
  - intros i Hi Hlt. rewrite (length_foldl_wr (λ _ k, g k)) in Hlt.
    rewrite (rd_foldl_pointwise (λ k _, g k)) by done.
    rewrite decide_True by lia. by rewrite rd_fmap_seqZ by lia.
Qed.

Lemma vector_copy_overwrites src dst n :
  length dst = Z.to_nat n → vector_copy src dst n = rd src <$> seqZ 0 n.
Proof. apply (foldl_wr_overwrites (rd src)). Qed.

Lemma fill_ones_overwrites r0 n :
  length r0 = Z.to_nat n → fill_ones r0 n = (λ _, d_one) <$> seqZ 0 n.
Proof. apply (foldl_wr_overwrites (λ _, d_one)). Qed.

Lemma vector_axpby_overwrites (c : D) x (d : D) y z n :
  length z = Z.to_nat n →
  vector_axpby c x d y z n = (λ i, c * rd x i + d * rd y i)%D <$> seqZ 0 n.
Proof. apply (foldl_wr_overwrites (λ i, c * rd x i + d * rd y i)%D). Qed.

Lemma matvec_csr_row_sum_cells (A : CSRMatrix D) x y :
  length y = Z.to_nat (csr_n A) →
  matvec_csr A x y = row_sum A x <$> seqZ 0 (csr_n A).
Proof.
  intros Hy. rewrite matvec_csr_row_sums. by apply (foldl_wr_overwrites (row_sum A x)).
Qed.

Lemma length_vector_axpby (c : D) x (d : D) y z n :
  length (vector_axpby c x d y z n) = length z.
Proof. apply (length_foldl_wr (λ _ i, c * rd x i + d * rd y i)%D). Qed.

Lemma length_matvec_csr (A : CSRMatrix D) x y : length (matvec_csr A x y) = length y.
Proof. rewrite matvec_csr_row_sums. apply (length_foldl_wr (λ _ i, row_sum A x i)). Qed.

Lemma length_update_p r (beta omega : D) v p n :
  length (update_p r beta omega v p n) = length p.
Proof. apply (length_foldl_wr (λ p i, rd r i + beta * (rd p i - omega * rd v i))%D). Qed.

Lemma rd_vector_axpy (c : D) x y n i :
  0 ≤ i → (Z.to_nat i < length y)%nat →
  rd (vector_axpy c x y n) i = if decide (i < n) then (rd y i + c * rd x i)%D else rd y i.
Proof.
  intros. unfold vector_axpy.
  by rewrite (rd_foldl_pointwise (λ k yk, yk + c * rd x k)%D).
Qed.

Lemma rd_vector_axpby (c : D) x (d : D) y z n i :
  0 ≤ i → (Z.to_nat i < length z)%nat →
  rd (vector_axpby c x d y z n) i
  = if decide (i < n) then (c * rd x i + d * rd y i)%D else rd z i.
Proof.
  intros. unfold vector_axpby.
  by rewrite (rd_foldl_pointwise (λ k _, c * rd x k + d * rd y k)%D).
Qed.

Lemma rd_matvec_csr (A : CSRMatrix D) x y i :
  length y = Z.to_nat (csr_n A) → 0 ≤ i < csr_n A →
  rd (matvec_csr A x y) i = row_sum A x i.
Proof. intros. rewrite matvec_csr_row_sum_cells by done. by rewrite rd_fmap_seqZ. Qed.

(** Two loops whose bodies agree on the indices they run over are equal. *)
Lemma foldl_ext_in {St : Type} (f g : St → Z → St) (l : list Z) (s : St) :
  (∀ s k, k ∈ l → f s k = g s k) → foldl f s l = foldl g s l.
Proof.
  revert s. induction l as [|k l IH]; intros s Hfg; simpl; [done|].
  rewrite Hfg by left. apply IH. intros. apply Hfg. by right.
Qed.

Lemma foldl_fmap_list {S1 T U : Type} (f : S1 → U → S1) (g : T → U) (s : S1) (l : list T) :
  foldl f s (g <$> l) = foldl (λ s t, f s (g t)) s l.
Proof. revert s. induction l as [|t l IH]; intros s; simpl; [done|]. apply IH. Qed.
End overwriting_kernels.

Section scratch_facts.
Context {D : Type} `{!Arith D}.
Implicit Types (A : CSRMatrix D) (sys : FEMSystem D) (w : Work D) (tol bnorm : D).

(** A pass on two states that agree on what it reads gives two states that
    agree again, or leaves the loop with one count and one [x]. *)
Lemma serial_body_live_eq A n bnorm tol iter w1 w2 :
  csr_n A = n → live_eq n iter w1 w2 →
  match serial_body A n bnorm tol iter w1, serial_body A n bnorm tol iter w2 with
  | Next w1', Next w2' => live_eq n (iter + 1) w1' w2'
  | Break i1 w1', Break i2 w2' => i1 = i2 ∧ w_x w1' = w_x w2'
  | _, _ => False
  end.
Proof.
  intros HA (Hx & Hr & Hr0 & Hp & Hrho & Halpha & Homega & Hv & [Hv1 Hv2] & [Hs1 Hs2] & [Ht1 Ht2]).
  unfold serial_body. rewrite Hx, Hr, Hr0, Hp, Hrho, Halpha, Homega.
  destruct (dlt (dfabs (dot_product (w_r0 w2) (w_r w2) n)) d_tiny); [done|].
  assert ((if iter =? 0 then vector_copy (w_r w2) (w_p w2) n
           else update_p (w_r w2)
                  (dot_product (w_r0 w2) (w_r w2) n / w_rho w2 * (w_alpha w2 / w_omega w2))%D
                  (w_omega w2) (w_v w1) (w_p w2) n)
          = (if iter =? 0 then vector_copy (w_r w2) (w_p w2) n
             else update_p (w_r w2)
                    (dot_product (w_r0 w2) (w_r w2) n / w_rho w2 * (w_alpha w2 / w_omega w2))%D
                    (w_omega w2) (w_v w2) (w_p w2) n)) as ->.
  { destruct (iter =? 0) eqn:Hit; [done|]. apply Z.eqb_neq in Hit. by rewrite Hv. }
  set (p := if iter =? 0 then _ else _).
  rewrite (matvec_csr_row_sum_cells A p (w_v w1)), (matvec_csr_row_sum_cells A p (w_v w2))
    by (rewrite HA; done).
  set (v := row_sum A p <$> seqZ 0 (csr_n A)).
  set (alpha := (dot_product (w_r0 w2) (w_r w2) n / dot_product (w_r0 w2) v n)%D).
  rewrite (vector_axpby_overwrites _ _ _ _ (w_s w1)), (vector_axpby_overwrites _ _ _ _ (w_s w2))
    by done.
  set (s := (λ i, d_one * rd (w_r w2) i + - alpha * rd v i)%D <$> seqZ 0 n).
  destruct (dlt (vector_norm s n / bnorm)%D tol); [done|].
  rewrite (matvec_csr_row_sum_cells A s (w_t w1)), (matvec_csr_row_sum_cells A s (w_t w2))
    by (rewrite HA; done).
  set (t := row_sum A s <$> seqZ 0 (csr_n A)).
  assert (length v = Z.to_nat n ∧ length s = Z.to_nat n ∧ length t = Z.to_nat n) as (?&?&?).
  { unfold v, s, t. rewrite !length_fmap, !length_seqZ. lia. }
  destruct (dlt _ tol); [done|].
  destruct (dlt _ d_tiny); [done|].
  unfold live_eq. simpl. repeat split; done.
Qed.

Lemma serial_loop_live_eq A n bnorm tol todo iter w1 w2 :
  csr_n A = n → live_eq n iter w1 w2 →
  fst (serial_loop A n bnorm tol todo iter w1) = fst (serial_loop A n bnorm tol todo iter w2)
  ∧ w_x (snd (serial_loop A n bnorm tol todo iter w1))
    = w_x (snd (serial_loop A n bnorm tol todo iter w2)).
Proof.
  intros HA. revert iter w1 w2. induction todo as [|todo IH]; intros iter w1 w2 Hlive; simpl.
  - split; [done|]. apply Hlive.
  - pose proof (serial_body_live_eq A n bnorm tol iter w1 w2 HA Hlive) as Hbody.
    destruct (serial_body A n bnorm tol iter w1), (serial_body A n bnorm tol iter w2);
      try done.
    by apply IH.
Qed.

Lemma serial_init_on_live_eq (m : Scratch D) sys :
  scratch_size m (sys_n sys) →
  live_eq (sys_n sys) 0 (serial_init_on m sys) (serial_init sys).
Proof.
  intros (Hr & Hr0 & Hp & Hv & Hs & Ht).
  unfold live_eq, serial_init_on, serial_init. simpl.
  rewrite !vector_copy_overwrites, !fill_ones_overwrites
    by (rewrite ?length_fmap, ?length_seqZ, ?length_malloc; done).
  rewrite !length_malloc. repeat split; done.
Qed.

(** X9: the count and the [x] a solve returns do not depend on what the six
    working vectors held when [malloc] returned them: every cell the loop
    reads has been written before, provided the matrix has as many rows
    ([A.n]) as the system has unknowns ([sys->n]). *)
Theorem scratch_content_is_irrelevant (m : Scratch D) sys max_iter tol :
  csr_n (sys_A sys) = sys_n sys →
  scratch_size m (sys_n sys) →
  bicgstab_serial_on m sys max_iter tol = bicgstab_serial sys max_iter tol.
Proof.
  intros HA Hm. rewrite bicgstab_serial_unfold. unfold bicgstab_serial_on.
  destruct (serial_loop_live_eq (sys_A sys) (sys_n sys) (serial_bnorm sys) tol
              (Z.to_nat max_iter) 0 _ _ HA (serial_init_on_live_eq m sys Hm)) as [Hi Hx].
  destruct (serial_loop _ _ _ _ _ _ (serial_init_on m sys)) as [iter w].
  simpl in Hi, Hx. by rewrite Hi, Hx.
Qed.
End scratch_facts.

(** ** The OpenMP kernels in any arithmetic *)

Section parallel_any_arithmetic.
Context {D : Type} `{!Arith D}.

End parallel_any_arithmetic.

Section parallel_zero_rhs.
Context {D : Type} `{!Arith D} `{!ZeroLaws D} `{!ZeroSum D}.
Implicit Types (sys : FEMSystem D) (team : Team).

(** A reduction all of whose terms leave a zero sum at zero gives zero. *)
Lemma omp_reduce_plus_vanishes team n (term : Z → D) :
  team_valid team →
  (∀ i, 0 ≤ i < n → (d_zero + term i)%D = d_zero) →
  omp_reduce_plus team n term d_zero = d_zero.
Proof.
  intros Hteam Hterm. unfold omp_reduce_plus.
  assert (∀ its, its ∈ team n → foldl (λ sum i, sum + term i)%D d_zero its = d_zero) as Hpart.
  { intros its Hits. apply (foldl_preserves (λ sum, sum = d_zero)); [done|].
    intros k sum Hk ->. apply Hterm.
    assert (k ∈ concat (team n)) as Hin.
    { apply list_elem_of_In, in_concat. exists its. by split; apply list_elem_of_In. }
    rewrite (Hteam n) in Hin. apply elem_of_seqZ in Hin. lia. }
  induction (team n) as [|its chunks IH]; simpl; [done|].
  rewrite Hpart by left. rewrite zero_plus_zero. apply IH.
  intros its' Hits'. apply Hpart. by right.
Qed.

(** X11: when [b] is the zero vector and [max_iter > 0], the parallel solver
    returns 0 and leaves the system as it was, whatever the matrix, the
    tolerance, the number of threads and the split of the iterations: every
    partial sum of [rho = dot(r0, r)] is zero, so [rho] breaks down in the
    first pass.  The arithmetic enters through laws on zero that binary64 and
    the reals satisfy. *)
Theorem parallel_zero_rhs_stops_at_0 omp sys max_iter tol num_threads :
  team_valid (omp num_threads) →
  0 < max_iter →
  sys_b sys = replicate (Z.to_nat (sys_n sys)) d_zero →
  bicgstab_parallel omp sys max_iter tol num_threads = (0, sys).
Proof.
  intros Hteam Hmax Hb. rewrite bicgstab_parallel_unfold.
  rewrite parallel_init_serial by done.
  replace (Z.to_nat max_iter) with (S (Z.to_nat max_iter - 1)) by lia.
  cbn [parallel_loop].
  assert (dot_product_parallel (omp num_threads) (w_r0 (serial_init sys))
                               (w_r (serial_init sys)) (sys_n sys) = d_zero) as Hrho.
  { apply omp_reduce_plus_vanishes; [done|]. intros i Hi. simpl.
    rewrite rd_fill_ones, rd_vector_copy by (rewrite ?length_malloc; lia).
    rewrite Hb, rd_replicate_zero. apply zero_plus_one_times_zero. }
  unfold parallel_body. rewrite Hrho, zero_below_tiny. simpl.
  rewrite with_x_same. unfold solver_result. by rewrite (proj2 (Z.leb_gt _ _)) by lia.
Qed.
End parallel_zero_rhs.

(** ** Sums in binary64 are never a negative zero *)

Lemma shr_1_positive (mrs : shr_record) (p : positive) :
  shr_m mrs = Z.pos p → 1 < Z.pos (digits2_pos p) →
  ∃ p', shr_m (shr_1 mrs) = Z.pos p'
        ∧ Z.pos (digits2_pos p') = Z.pos (digits2_pos p) - 1.
Proof.
  destruct mrs as [m r s]. simpl. intros -> Hp.
  destruct p as [q|q|]; simpl in *; [exists q; lia | exists q; lia | lia].
Qed.

Lemma iter_shr_1_positive (k : positive) :
  ∀ (mrs : shr_record) (p : positive),
    shr_m mrs = Z.pos p → Z.pos k < Z.pos (digits2_pos p) →
    ∃ p', shr_m (SpecFloat.iter_pos shr_1 k mrs) = Z.pos p'
          ∧ Z.pos (digits2_pos p') = Z.pos (digits2_pos p) - Z.pos k.
Proof.
  induction k as [k IH|k IH|]; intros mrs p Hm Hk; cbn [SpecFloat.iter_pos].
  - destruct (shr_1_positive mrs p Hm) as (p1 & Hm1 & Hd1); [lia|].
    destruct (IH _ p1 Hm1) as (p2 & Hm2 & Hd2); [lia|].
    destruct (IH _ p2 Hm2) as (p3 & Hm3 & Hd3); [lia|].
    exists p3. split; [done | lia].
  - destruct (IH _ p Hm) as (p2 & Hm2 & Hd2); [lia|].
    destruct (IH _ p2 Hm2) as (p3 & Hm3 & Hd3); [lia|].
    exists p3. split; [done | lia].
  - destruct (shr_1_positive mrs p Hm) as (p1 & Hm1 & Hd1); [lia|].
    exists p1. split; [done | lia].
Qed.

Lemma shr_record_of_loc_m (m : Z) (l : location) : shr_m (shr_record_of_loc m l) = m.
Proof. by destruct l as [|[]]. Qed.

(** The shift that brings a mantissa to its format is shorter than the
    mantissa, when the exponent is not below the least exponent. *)
Lemma shr_fexp_positive (p : positive) (e : Z) (l : location) :
  SpecFloat.emin prec emax ≤ e →
  ∃ mrs e' p', shr_fexp prec emax (Z.pos p) e l = (mrs, e')
               ∧ shr_m mrs = Z.pos p' ∧ SpecFloat.emin prec emax ≤ e'.
Proof.
  intros He. unfold shr_fexp, shr, Zdigits2.
  assert (fexp prec emax (Z.pos (digits2_pos p) + e) - e < Z.pos (digits2_pos p)) as Hshift.
  { unfold fexp, SpecFloat.emin, prec, emax in *. lia. }
  destruct (fexp prec emax (Z.pos (digits2_pos p) + e) - e) as [|k|k] eqn:Hk.
  - eexists _, _, p. split; [done|]. by rewrite shr_record_of_loc_m.
  - destruct (iter_shr_1_positive k (shr_record_of_loc (Z.pos p) l) p) as (p' & Hm & _);
      [apply shr_record_of_loc_m | lia |].
    eexists _, _, p'. split; [done|]. split; [done | lia].
  - eexists _, _, p. split; [done|]. by rewrite shr_record_of_loc_m.
Qed.

Lemma round_nearest_even_positive (p : positive) (l : location) :
  ∃ p', round_nearest_even (Z.pos p) l = Z.pos p'.
Proof.
  destruct l as [|[]]; simpl; eauto.
  destruct p; simpl; eauto.
Qed.

Lemma binary_round_aux_not_zero (sx sz : bool) (p : positive) (e : Z) (l : location) :
  SpecFloat.emin prec emax ≤ e →
  binary_round_aux prec emax sx (Z.pos p) e l ≠ S754_zero sz.
Proof.
  intros He. unfold binary_round_aux.
  destruct (shr_fexp_positive p e l He) as (mrs & e' & p' & -> & Hm & He').
  rewrite Hm.
  destruct (round_nearest_even_positive p' (loc_of_shr_record mrs)) as [p'' ->].
  destruct (shr_fexp_positive p'' e' loc_Exact He') as (mrs2 & e2 & p2 & -> & Hm2 & _).
  rewrite Hm2. by destruct (e2 <=? emax - prec).
Qed.

Lemma binary_round_not_zero (sx sz : bool) (m : positive) (e : Z) :
  SpecFloat.emin prec emax ≤ e →
  binary_round prec emax sx m e ≠ S754_zero sz.
Proof.
  intros He. unfold binary_round, shl_align.
  destruct (fexp prec emax (Z.pos (digits2_pos m) + e) - e) eqn:Hk;
    apply binary_round_aux_not_zero; try done.
  unfold fexp. lia.
Qed.

Lemma valid_finite_exponent (s : bool) (m : positive) (e : Z) :
  valid_binary (S754_finite s m e) = true → SpecFloat.emin prec emax ≤ e.
Proof.
  unfold valid_binary, SpecFloat.valid_binary, bounded, canonical_mantissa. intros H.
  apply andb_prop in H as [H _]. apply Z.eqb_eq in H. unfold fexp in H. lia.
Qed.

(** In the specification of binary64 a sum is a negative zero only when its
    first term is. *)
Lemma SF64add_not_neg_zero (x y : spec_float) :
  valid_binary x = true → valid_binary y = true →
  x ≠ S754_zero true → SF64add x y ≠ S754_zero true.
Proof.
  intros Hx Hy Hnz.
  destruct x as [[|]|[|]| |sx mx ex], y as [[|]|[|]| |sy my ey]; try done.
  apply valid_finite_exponent in Hx, Hy.
  unfold SF64add, SFadd, binary_normalize.
  destruct (cond_Zopp sx _ + cond_Zopp sy _) as [|m|m]; [done| |];
    apply binary_round_not_zero; lia.
Qed.

Lemma float_add_not_neg_zero (x y : float) :
  x ≠ (-0)%float → (x + y)%float ≠ (-0)%float.
Proof.
  intros Hx Heq. apply (f_equal Prim2SF) in Heq. rewrite add_spec in Heq.
  revert Heq. change (Prim2SF (-0)%float) with (S754_zero true).
  apply SF64add_not_neg_zero; [apply Prim2SF_valid.. |].
  intros H. apply Hx, Prim2SF_inj. by rewrite H.
Qed.

(** A running sum that starts at [+0.0] is never [-0.0]. *)
Lemma float_running_sum_not_neg_zero (term : Z → float) (its : list Z) :
  foldl (λ sum i, sum + term i)%float 0%float its ≠ (-0)%float.
Proof.
  apply (foldl_preserves (λ sum, sum ≠ (-0)%float)).
  - intros H. by apply (f_equal Prim2SF) in H.
  - intros k sum _ Hsum. by apply float_add_not_neg_zero.
Qed.

(** ** One thread in binary64 *)

Section one_thread.
Context (team : Team) (Hteam : team_single team).

Lemma team_single_valid : team_valid team.
Proof using Hteam. intros n. rewrite Hteam. simpl. by rewrite app_nil_r. Qed.

(** With one thread the reduction adds the one partial sum to [0.0]. *)
Lemma dot_product_parallel_one_thread (a b : list float) n :
  dot_product_parallel team a b n = dot_product a b n.
Proof using Hteam.
  unfold dot_product_parallel, omp_reduce_plus. rewrite Hteam. simpl.
  apply float_add_zero_l, float_running_sum_not_neg_zero.
Qed.
End one_thread.

(** The two loop bodies agree once the dot products do. *)
Section same_dot_products.
Context {D : Type} `{!Arith D}.
Context (team : Team) (Hteam : team_valid team).
Context (Hdot : ∀ (a b : list D) n, dot_product_parallel team a b n = dot_product a b n).
Implicit Types (A : CSRMatrix D) (sys : FEMSystem D) (w : Work D) (tol bnorm : D).

Lemma parallel_body_serial_dot A n bnorm tol iter w :
  parallel_body team A n bnorm tol iter w = serial_body A n bnorm tol iter w.
Proof using Hteam Hdot.
  unfold parallel_body, serial_body, vector_norm_parallel, vector_norm. cbv zeta.
  rewrite ?vector_copy_parallel_serial, ?update_p_parallel_serial by done.
  rewrite ?matvec_csr_parallel_serial by done.
  rewrite ?vector_axpby_parallel_serial by done.
  rewrite ?matvec_csr_parallel_serial by done.
  rewrite ?vector_axpby_parallel_serial, ?vector_axpy_parallel_serial by done.
  rewrite ?Hdot.
  reflexivity.
Qed.

Lemma parallel_loop_serial_dot A n bnorm tol todo iter w :
  parallel_loop team A n bnorm tol todo iter w = serial_loop A n bnorm tol todo iter w.
Proof using Hteam Hdot.
  revert iter w. induction todo as [|todo IH]; intros iter w; simpl; [done|].
  rewrite parallel_body_serial_dot.
  destruct (serial_body A n bnorm tol iter w); [apply IH | done].
Qed.

Lemma parallel_bnorm_serial_dot sys : parallel_bnorm team sys = serial_bnorm sys.
Proof using Hdot.
  unfold parallel_bnorm, serial_bnorm, vector_norm_parallel, vector_norm. cbv zeta.
  by rewrite Hdot.
Qed.
End same_dot_products.


Lemma omp_blocks_single : team_single (omp_blocks 1).
Proof.
  intros n. unfold omp_blocks. simpl.
  destruct (decide (0 ≤ n)).
  - by rewrite Z.max_r by lia.
  - rewrite Z.max_l by lia. by rewrite (seqZ_nil 0 n) by lia.
Qed.

(** ** The grid and the assembled system *)

Section grid.
Implicit Types (nx ny i j k : Z).

Lemma get_boundary_type_interior nx ny i j :
  0 ≤ i < ny → 0 ≤ j < nx →
  (0 <? get_boundary_type i j nx ny) = negb (interior nx ny i j).
Proof.
  intros Hi Hj. unfold get_boundary_type, interior.
  repeat case_match; lia.
Qed.

(** X13: on the nodes of the grid, [get_boundary_type] returns 0 exactly for the
    nodes strictly inside; on the boundary the tests are tried in the order
    [j == 0], [i == ny-1], [j == nx-1], [i == 0], so that a corner node gets
    the type of the first test it passes. *)
Theorem get_boundary_type_classifies nx ny i j :
  0 ≤ i < ny → 0 ≤ j < nx →
  0 ≤ get_boundary_type i j nx ny ≤ 4
  ∧ (get_boundary_type i j nx ny = 0 ↔ 0 < i < ny - 1 ∧ 0 < j < nx - 1)
  ∧ (get_boundary_type i j nx ny = 1 ↔ j = 0)
  ∧ (get_boundary_type i j nx ny = 2 ↔ j ≠ 0 ∧ i = ny - 1)
  ∧ (get_boundary_type i j nx ny = 3 ↔ j ≠ 0 ∧ i ≠ ny - 1 ∧ j = nx - 1)
  ∧ (get_boundary_type i j nx ny = 4 ↔ j ≠ 0 ∧ i ≠ ny - 1 ∧ j ≠ nx - 1 ∧ i = 0).
Proof.
  intros Hi Hj. unfold get_boundary_type.
  repeat case_match; lia.
Qed.

End grid.

Section assembly_counts.
Context {D : Type} `{!Arith D}.
Implicit Types (a : Assembly D) (es : list (Z * D)) (nx ny i j k : Z) (ke kn kw : D).

Lemma nnz_count_push_entries es a :
  nnz_count (push_entries es a) = nnz_count a + Z.of_nat (length es).
Proof.
  revert a. induction es as [|e es IH]; intros a; simpl; [lia|].
  change (foldl _ (push_entry e.2 e.1 a) es) with (push_entries es (push_entry e.2 e.1 a)).
  rewrite IH. simpl. lia.
Qed.

Lemma asm_b_push_entries es a : asm_b (push_entries es a) = asm_b a.
Proof.
  revert a. induction es as [|e es IH]; intros a; simpl; [done|].
  change (foldl _ (push_entry e.2 e.1 a) es) with (push_entries es (push_entry e.2 e.1 a)).
  by rewrite IH.
Qed.

(** A node strictly inside the grid stores its five stencil entries, a
    boundary node its diagonal entry alone. *)
Lemma node_entries_count nx ny ke kn kw i j :
  0 ≤ i < ny → 0 ≤ j < nx →
  Z.of_nat (length (node_entries nx ny ke kn kw i j))
  = if interior nx ny i j then 5 else 1.
Proof.
  intros Hi Hj. unfold node_entries.
  rewrite get_boundary_type_interior by done.
  unfold interior.
  destruct (0 <? i) eqn:H1, (i <? ny - 1) eqn:H2, (0 <? j) eqn:H3, (j <? nx - 1) eqn:H4;
    simpl; lia.
Qed.

Lemma nnz_count_assemble_node nx ny ke kn kw i j a :
  0 ≤ i < ny → 0 ≤ j < nx →
  nnz_count (assemble_node nx ny ke kn kw i j a)
  = nnz_count a + if interior nx ny i j then 5 else 1.
Proof.
  intros Hi Hj. rewrite assemble_node_entries. simpl.
  by rewrite nnz_count_push_entries, node_entries_count.
Qed.

(** The entries stored by the inner loop for grid row [i]. *)
Lemma nnz_count_assemble_grid_row nx ny i a :
  0 ≤ nx → 0 ≤ i < ny →
  nnz_count (assemble_grid_row nx ny i a)
  = nnz_count a + nx + (if decide (0 < i < ny - 1) then 4 * Z.max 0 (nx - 2) else 0).
Proof.
  intros Hnx Hi. unfold assemble_grid_row.
  set (f := λ a j, assemble_node nx ny (stiffness_ke nx ny) (stiffness_kn nx ny)
                                 (stiffness_kw nx ny) i j a).
  set (P := λ (j : Z) (a' : Assembly D),
              nnz_count a' = nnz_count a + j
                + (if decide (0 < i < ny - 1) then 4 * Z.max 0 (Z.min j (nx - 1) - 1) else 0)).
  assert (P (0 + nx) (foldl f a (seqZ 0 nx))) as HP.
  { apply (foldl_seqZ_invariant P f 0 nx); [done| |].
    - unfold P. case_decide; lia.
    - intros j a' Hj Ha'. unfold P, f in *.
      rewrite nnz_count_assemble_node, Ha' by lia.
      unfold interior.
      destruct (0 <? i) eqn:H1, (i <? ny - 1) eqn:H2, (0 <? j) eqn:H3, (j <? nx - 1) eqn:H4;
        simpl; case_decide; lia. }
  unfold P in HP. rewrite HP. case_decide; lia.
Qed.

Lemma nnz_count_assemble nx ny :
  0 ≤ nx → 0 ≤ ny →
  nnz_count (assemble (D:=D) nx ny) = nx * ny + 4 * (Z.max 0 (nx - 2) * Z.max 0 (ny - 2)).
Proof.
  intros Hnx Hny. unfold assemble.
  set (P := λ (i : Z) (a : Assembly D),
              nnz_count a = i * nx + 4 * (Z.max 0 (nx - 2) * Z.max 0 (Z.min i (ny - 1) - 1))).
  assert (P (0 + ny) (foldl (λ a i, assemble_grid_row nx ny i a)
                            (assembly_start nx ny) (seqZ 0 ny))) as HP.
  { apply (foldl_seqZ_invariant P _ 0 ny); [done| |].
    - unfold P. simpl. lia.
    - intros i a Hi Ha. unfold P in *.
      rewrite nnz_count_assemble_grid_row, Ha by lia.
      set (M := Z.max 0 (nx - 2)).
      case_decide.
      + replace (Z.max 0 (Z.min (i + 1) (ny - 1) - 1)) with (Z.max 0 (Z.min i (ny - 1) - 1) + 1)
          by lia. lia.
      + replace (Z.max 0 (Z.min (i + 1) (ny - 1) - 1)) with (Z.max 0 (Z.min i (ny - 1) - 1))
          by lia. lia. }
  unfold P in HP. rewrite HP.
  replace (Z.max 0 (Z.min (0 + ny) (ny - 1) - 1)) with (Z.max 0 (ny - 2)) by lia. lia.
Qed.


(** ** The right-hand side *)

Lemma asm_b_assemble_node nx ny ke kn kw i j a :
  asm_b (assemble_node nx ny ke kn kw i j a)
  = wr (asm_b a) (get_node_number i j nx) (node_rhs nx ny i j).
Proof. rewrite assemble_node_entries. simpl. by rewrite asm_b_push_entries. Qed.

Lemma assemble_node_rhs_invariant nx ny ke kn kw i j a :
  0 ≤ i < ny → 0 ≤ j < nx →
  rhs_invariant nx ny (i * nx + j) a →
  rhs_invariant nx ny (i * nx + j + 1) (assemble_node nx ny ke kn kw i j a).
Proof.
  intros Hi Hj [Hlen Hb].
  pose proof (node_in_grid nx ny i j Hi Hj) as Hnode. unfold get_node_number in Hnode.
  unfold rhs_invariant. rewrite asm_b_assemble_node. unfold get_node_number.
  split; [by rewrite length_wr|].
  intros i' j' Hi' Hj' Hlt.
  destruct (decide (i' * nx + j' = i * nx + j)) as [Heq|Hne].
  - destruct (node_number_inj nx i' j' i j) as [-> ->]; [done..|].
    apply rd_wr_eq; lia.
  - assert (0 ≤ i' * nx + j') by nia.
    rewrite rd_wr_ne by lia. apply Hb; lia.
Qed.

Lemma assemble_rhs_invariant nx ny :
  0 ≤ nx → 0 ≤ ny → rhs_invariant nx ny (nx * ny) (assemble nx ny).
Proof.
  intros Hnx Hny.
  assert (rhs_invariant nx ny (0 * nx + ny * nx) (assemble nx ny)) as Hall.
  { unfold assemble.
    apply (foldl_seqZ_invariant (λ i a, rhs_invariant nx ny (i * nx) a)
             (λ a i, assemble_grid_row nx ny i a) 0 ny); [done| |].
    - split; [apply length_replicate|]. intros; nia.
    - intros i a Hi Ha. unfold assemble_grid_row.
      replace ((i + 1) * nx) with (i * nx + (0 + nx)) by lia.
      apply (foldl_seqZ_invariant (λ j a, rhs_invariant nx ny (i * nx + j) a)
               (λ a j, assemble_node nx ny (stiffness_ke nx ny) (stiffness_kn nx ny)
                                     (stiffness_kw nx ny) i j a) 0 nx); [done| |].
      + by rewrite Z.add_0_r.
      + intros j a' Hj Ha'. rewrite Z.add_assoc.
        apply assemble_node_rhs_invariant; (done || lia). }
  by replace (0 * nx + ny * nx) with (nx * ny) in Hall by lia.
Qed.

End assembly_counts.

Section rows.
Context {D : Type} `{!Arith D}.
Implicit Types (A : CSRMatrix D) (x y : list D) (nx ny i j k : Z).

(** The matrix of [create_fem_system]: its dimension, the CSR invariant and
    the content of its rows. *)
Lemma create_fem_system_rows nx ny :
  0 ≤ nx → 0 ≤ ny →
  csr_invariant (sys_A (create_fem_system (D:=D) nx ny))
  ∧ ∀ i j, 0 ≤ i < ny → 0 ≤ j < nx →
      csr_row (sys_A (create_fem_system nx ny)) (get_node_number i j nx)
      = node_entries nx ny (stiffness_ke nx ny) (stiffness_kn nx ny)
                     (stiffness_kw nx ny) i j.
Proof.
  intros Hnx Hny. rewrite create_fem_system_matrix.
  destruct (assemble_invariant nx ny)
    as ((Hlv & Hlc & Hlr) & Hcount & Hrow0 & Hrowk & Hmono & Hcols & Hent); [lia..|].
  assert (0 ≤ nx * ny) as Hn by nia.
  set (a := assemble nx ny) in *.
  set (A := {| csr_n := nx * ny; csr_nnz := nnz_count a;
               csr_values := copy_prefix (temp_values a) (malloc (nnz_count a)) (nnz_count a);
               csr_col_idx := copy_prefix (temp_col a)
                                (replicate (Z.to_nat (nnz_count a)) 0) (nnz_count a);
               csr_row_ptr := copy_prefix (temp_row a)
                                (replicate (Z.to_nat (nx * ny + 1)) 0) (nx * ny + 1) |}).
  assert (∀ m, 0 ≤ m ≤ nx * ny → rd (csr_row_ptr A) m = rd (temp_row a) m) as Hrp.
  { intros m Hm. apply rd_copy_prefix; [lia|]. rewrite length_replicate. lia. }
  assert (∀ q, 0 ≤ q < nnz_count a → rd (csr_col_idx A) q = rd (temp_col a) q) as Hci.
  { intros q Hq. apply rd_copy_prefix; [lia|]. rewrite length_replicate. lia. }
  assert (∀ q, 0 ≤ q < nnz_count a → rd (csr_values A) q = rd (temp_values a) q) as Hcv.
  { intros q Hq. apply rd_copy_prefix; [lia|]. rewrite length_malloc. lia. }
  assert (length (csr_col_idx A) = Z.to_nat (nnz_count a)) as Hlci.
  { unfold A. cbn [csr_col_idx]. by rewrite length_copy_prefix, length_replicate. }
  assert (length (csr_values A) = Z.to_nat (nnz_count a)) as Hlcv.
  { unfold A. cbn [csr_values]. by rewrite length_copy_prefix, length_malloc. }
  assert (length (csr_row_ptr A) = Z.to_nat (nx * ny + 1)) as Hlrp.
  { unfold A. cbn [csr_row_ptr]. by rewrite length_copy_prefix, length_replicate. }
  split.
  - unfold csr_invariant.
    change (csr_n A) with (nx * ny). change (csr_nnz A) with (nnz_count a).
    split; [|split; [|split; [|split; [|split; [|split]]]]]; try done.
    + by rewrite Hrp by lia.
    + intros i Hi. rewrite !Hrp by lia. specialize (Hmono i). lia.
    + by rewrite Hrp by lia.
    + intros j Hj. rewrite Hci by done. by apply Hcols.
  - intros i j Hi Hj. unfold csr_row, get_node_number.
    pose proof (node_in_grid nx ny i j Hi Hj) as Hnode. unfold get_node_number in Hnode.
    destruct (Hent i j) as [Hrows Hes]; [lia..|].
    specialize (Hmono (i * nx + j)).
    set (es := node_entries nx ny (stiffness_ke nx ny) (stiffness_kn nx ny)
                            (stiffness_kw nx ny) i j) in *.
    rewrite !Hrp by lia. rewrite Hrows.
    rewrite <- (zip_fst_snd es) at 3.
    f_equal.
    + rewrite <- (length_fmap fst es). apply slice_pointwise.
      * lia.
      * rewrite length_fmap, Hlci. lia.
      * intros t Ht. rewrite length_fmap in Ht.
        rewrite Hci, rd_fmap by lia. by rewrite <- Hes by lia.
    + rewrite <- (length_fmap snd es). apply slice_pointwise.
      * lia.
      * rewrite length_fmap, Hlcv. lia.
      * intros t Ht. rewrite length_fmap in Ht.
        rewrite Hcv, rd_fmap by lia. by rewrite <- Hes by lia.
Qed.

(** In a matrix that satisfies the CSR invariant the range of every row lies
    inside the arrays. *)
Lemma csr_invariant_row_range A i :
  csr_invariant A → 0 ≤ i < csr_n A →
  0 ≤ rd (csr_row_ptr A) i ∧ rd (csr_row_ptr A) i ≤ rd (csr_row_ptr A) (i + 1)
  ∧ rd (csr_row_ptr A) (i + 1) ≤ csr_nnz A.
Proof.
  intros (Hlr & Hlc & Hlv & H0 & Hmono & Hend & Hcols) Hi.
  assert (∀ m : nat, Z.of_nat m ≤ csr_n A → 0 ≤ rd (csr_row_ptr A) (Z.of_nat m)) as Hlow.
  { induction m as [|m IH]; intros Hm.
    - change (Z.of_nat 0) with 0. lia.
    - replace (Z.of_nat (S m)) with (Z.of_nat m + 1) in * by lia.
      pose proof (Hmono (Z.of_nat m) ltac:(lia)) as Hstep.
      pose proof (IH ltac:(lia)) as IH'. lia. }
  assert (∀ d : nat, Z.of_nat d ≤ csr_n A →
            rd (csr_row_ptr A) (csr_n A - Z.of_nat d) ≤ csr_nnz A) as Hhigh.
  { induction d as [|d IH]; intros Hd.
    - rewrite Z.sub_0_r. lia.
    - pose proof (Hmono (csr_n A - Z.of_nat (S d)) ltac:(lia)) as Hstep.
      replace (csr_n A - Z.of_nat (S d) + 1) with (csr_n A - Z.of_nat d) in Hstep by lia.
      pose proof (IH ltac:(lia)) as IH'. lia. }
  split; [|split].
  - specialize (Hlow (Z.to_nat i)). rewrite Z2Nat.id in Hlow; lia.
  - apply Hmono. lia.
  - specialize (Hhigh (Z.to_nat (csr_n A - (i + 1)))).
    rewrite Z2Nat.id in Hhigh by lia.
    replace (csr_n A - (csr_n A - (i + 1))) with (i + 1) in Hhigh by lia. lia.
Qed.

(** The entries of a row are the cells its range holds. *)
Lemma csr_row_cells A i :
  csr_invariant A → 0 ≤ i < csr_n A →
  csr_row A i
  = (λ q, (rd (csr_col_idx A) q, rd (csr_values A) q))
    <$> seqZ (rd (csr_row_ptr A) i) (rd (csr_row_ptr A) (i + 1) - rd (csr_row_ptr A) i).
Proof.
  intros Hinv Hi.
  destruct (csr_invariant_row_range A i Hinv Hi) as (Hlo & Hle & Hhi).
  destruct Hinv as (Hlr & Hlc & Hlv & _).
  set (lo := rd (csr_row_ptr A) i) in *. set (hi := rd (csr_row_ptr A) (i + 1)) in *.
  set (es := (λ q, (rd (csr_col_idx A) q, rd (csr_values A) q)) <$> seqZ lo (hi - lo)).
  assert (length es = Z.to_nat (hi - lo)) as Hlen
    by (unfold es; by rewrite length_fmap, length_seqZ).
  assert (∀ t, 0 ≤ t < hi - lo →
            rd es t = (rd (csr_col_idx A) (lo + t), rd (csr_values A) (lo + t))) as Hes.
  { intros t Ht. unfold es. rewrite rd_fmap by (rewrite ?length_seqZ; lia).
    rewrite (rd_nonneg (seqZ lo (hi - lo))) by lia.
    rewrite lookup_total_seqZ_lt by lia. by rewrite Z2Nat.id by lia. }
  unfold csr_row. fold lo hi.
  rewrite <- (zip_fst_snd es). f_equal.
  - replace hi with (lo + Z.of_nat (length (es.*1))) by (rewrite length_fmap; lia).
    apply slice_pointwise; [lia | rewrite length_fmap; lia |].
    intros t Ht. rewrite length_fmap in Ht. rewrite rd_fmap by lia.
    by rewrite Hes by lia.
  - replace hi with (lo + Z.of_nat (length (es.*2))) by (rewrite length_fmap; lia).
    apply slice_pointwise; [lia | rewrite length_fmap; lia |].
    intros t Ht. rewrite length_fmap in Ht. rewrite rd_fmap by lia.
    by rewrite Hes by lia.
Qed.

(** The row sum of the matrix-vector product runs over the entries of the
    row, in storage order. *)
Lemma row_sum_entries A x i :
  csr_invariant A → 0 ≤ i < csr_n A →
  row_sum A x i = foldl (λ sum e, sum + e.2 * rd x e.1)%D d_zero (csr_row A i).
Proof.
  intros Hinv Hi. rewrite csr_row_cells by done.
  by rewrite foldl_fmap_list.
Qed.

(** The columns a node's entries lie in are pairwise distinct, and the node's
    own column is among them. *)
Lemma node_entries_columns_distinct nx ny ke kn kw i j :
  0 ≤ i < ny → 0 ≤ j < nx →
  NoDup (node_entries nx ny ke kn kw i j).*1
  ∧ get_node_number i j nx ∈ (node_entries nx ny ke kn kw i j).*1.
Proof.
  intros Hi Hj. unfold node_entries.
  rewrite get_boundary_type_interior by done.
  destruct (interior nx ny i j) eqn:Hint; simpl.
  - unfold interior in Hint.
    destruct (0 <? i) eqn:H1, (i <? ny - 1) eqn:H2, (0 <? j) eqn:H3, (j <? nx - 1) eqn:H4;
      try done. simpl.
    apply Z.ltb_lt in H1, H2, H3, H4.
    split.
    + unfold get_node_number.
      repeat (apply NoDup_cons; split; [rewrite ?elem_of_cons, elem_of_nil; nia|]).
      apply NoDup_nil_2.
    + rewrite !elem_of_cons. auto.
  - split; [apply NoDup_singleton | by apply list_elem_of_singleton].
Qed.


(** The cells of the product with the matrix of [create_fem_system]. *)
Lemma matvec_csr_grid_cells nx ny x y i j :
  0 ≤ i < ny → 0 ≤ j < nx →
  length y = Z.to_nat (nx * ny) →
  rd (matvec_csr (sys_A (create_fem_system nx ny)) x y) (get_node_number i j nx)
  = if interior nx ny i j then
      (d_zero
       + stiffness_kw nx ny * rd x (get_node_number i (j - 1) nx)
       + stiffness_kn nx ny * rd x (get_node_number (i - 1) j nx)
       + stiffness_ke nx ny * rd x (get_node_number i j nx)
       + stiffness_kn nx ny * rd x (get_node_number (i + 1) j nx)
       + stiffness_kw nx ny * rd x (get_node_number i (j + 1) nx))%D
    else (d_zero + d_one * rd x (get_node_number i j nx))%D.
Proof.
  intros Hi Hj Hy.
  destruct (create_fem_system_rows nx ny) as [Hinv Hrows]; [lia..|].
  pose proof (node_in_grid nx ny i j Hi Hj) as Hnode.
  rewrite matvec_csr_row_sum_cells by done.
  change (csr_n (sys_A (create_fem_system nx ny))) with (nx * ny) in *.
  rewrite rd_fmap_seqZ by done.
  rewrite row_sum_entries by done.
  rewrite Hrows by done. unfold node_entries.
  rewrite get_boundary_type_interior by done.
  destruct (interior nx ny i j) eqn:Hint; simpl; [|done].
  unfold interior in Hint.
  by destruct (0 <? i) eqn:H1, (i <? ny - 1) eqn:H2, (0 <? j) eqn:H3, (j <? nx - 1) eqn:H4.
Qed.
End rows.

(** ** Rows and their columns *)

Section row_columns.
Context {D : Type} `{!Arith D}.

(** The columns of the entries of a row are row numbers. *)
Lemma csr_row_columns (A : CSRMatrix D) i :
  csr_invariant A → 0 ≤ i < csr_n A →
  Forall (λ e, 0 ≤ e.1 < csr_n A) (csr_row A i).
Proof.
  intros Hinv Hi. rewrite csr_row_cells by done.
  destruct (csr_invariant_row_range A i Hinv Hi) as (Hlo & Hle & Hhi).
  destruct Hinv as (_ & _ & _ & _ & _ & _ & Hcols).
  apply Forall_fmap, Forall_forall. intros q Hq. simpl.
  apply elem_of_seqZ in Hq. apply Hcols. lia.
Qed.
End row_columns.

(** ** The solver in exact arithmetic *)

Ltac real_ops :=
  cbn [dadd dsub dmul ddiv dneg d_zero d_one dsqrt dfabs dlt deq real_arith] in *.

Section exact_solver.
Implicit Types (A : CSRMatrix R) (sys : FEMSystem R) (w : Work R) (x p s : list R).
Local Open Scope R_scope.

(** A sum of products is linear in the vector. *)
Lemma entries_sum_linear (es : list (Z * R)) (x p s x' : list R) (c d : R) (a0 a1 a2 : R) :
  Forall (λ e, rd x' e.1 = rd x e.1 + c * rd p e.1 + d * rd s e.1) es →
  foldl (λ sum e, sum + e.2 * rd x' e.1) (a0 + c * a1 + d * a2) es
  = foldl (λ sum e, sum + e.2 * rd x e.1) a0 es
    + c * foldl (λ sum e, sum + e.2 * rd p e.1) a1 es
    + d * foldl (λ sum e, sum + e.2 * rd s e.1) a2 es.
Proof.
  revert a0 a1 a2. induction es as [|e es IH]; intros a0 a1 a2 Hes; simpl; [done|].
  apply Forall_cons in Hes as [He Hes].
  rewrite <- (IH (a0 + e.2 * rd x e.1) (a1 + e.2 * rd p e.1) (a2 + e.2 * rd s e.1)) by done.
  f_equal. rewrite He. ring.
Qed.

Lemma row_sum_linear A x p s x' (c d : R) (i : Z) :
  csr_invariant A → (0 ≤ i < csr_n A)%Z →
  (∀ q, (0 ≤ q < csr_n A)%Z → rd x' q = rd x q + c * rd p q + d * rd s q) →
  row_sum A x' i = row_sum A x i + c * row_sum A p i + d * row_sum A s i.
Proof.
  intros Hinv Hi Hcells. rewrite !row_sum_entries by done. real_ops.
  rewrite <- (entries_sum_linear (csr_row A i) x p s x' c d 0 0 0).
  - f_equal. ring.
  - eapply Forall_impl; [by apply csr_row_columns|].
    intros e He. by apply Hcells.
Qed.

Lemma row_sum_zero_vector A (m : nat) (i : Z) : row_sum A (replicate m 0) i = 0.
Proof.
  assert (∀ k, rd (replicate m 0) k = 0) as Hzero
    by (intros k; exact (rd_replicate_zero (D:=R) m k)).
  unfold row_sum. apply (foldl_preserves (λ sum, sum = 0)); [done|].
  intros q sum _ ->. rewrite Hzero. real_ops. ring.
Qed.
End exact_solver.

Section body_next.
Context {D : Type} `{!Arith D}.
Implicit Types (A : CSRMatrix D) (sys : FEMSystem D) (w : Work D) (tol bnorm : D).

(** The variables a pass hands to the next one. *)
Lemma serial_body_next A n bnorm tol iter w w' :
  serial_body A n bnorm tol iter w = Next w' →
  w_x w' = body_x A n iter w ∧ w_r w' = body_r A n iter w
  ∧ w_p w' = body_p n iter w ∧ w_v w' = body_v A n iter w
  ∧ w_s w' = body_s A n iter w ∧ w_t w' = body_t A n iter w.
Proof.
  unfold body_x, body_r, body_omega, body_t, body_s, body_alpha, body_v, body_p, body_rho,
    serial_body.
  destruct (dlt (dfabs _) d_tiny); [done|].
  destruct (dlt _ tol); [done|].
  destruct (dlt _ tol); [done|].
  destruct (dlt (dfabs _) d_tiny); [done|].
  intros [= <-]. done.
Qed.

(** [verify_solution] prints the norm of any vector whose cells are those of
    [b - A x]. *)
Lemma verify_solution_norm sys (u : list D) :
  csr_n (sys_A sys) = sys_n sys →
  (∀ i, 0 ≤ i < sys_n sys →
     rd u i = (rd (sys_b sys) i - row_sum (sys_A sys) (sys_x sys) i)%D) →
  verify_solution sys = vector_norm u (sys_n sys).
Proof.
  intros HA Hu. unfold verify_solution, vector_norm, dot_product. f_equal.
  apply foldl_ext_in. intros sum k Hk. apply elem_of_seqZ in Hk.
  rewrite rd_matvec_csr by (rewrite ?length_malloc, ?HA; (done || lia)).
  by rewrite <- Hu by lia.
Qed.

Lemma length_body_p n iter w : length (body_p n iter w) = length (w_p w).
Proof.
  unfold body_p. destruct (iter =? 0); [apply length_vector_copy | apply length_update_p].
Qed.
End body_next.

Section exact_residual.
Implicit Types (A : CSRMatrix R) (sys : FEMSystem R) (w : Work R) (x p s : list R).
Local Open Scope R_scope.

Lemma serial_init_residual_invariant sys :
  system_wf sys →
  sys_x sys = replicate (Z.to_nat (sys_n sys)) 0 →
  residual_invariant sys (serial_init sys).
Proof.
  intros (Hinv & HA & Hb & Hx) Hzero. unfold residual_invariant, serial_init. simpl.
  rewrite !length_vector_copy, !length_malloc.
  split; [done|]. intros i Hi.
  rewrite rd_vector_copy by (rewrite ?length_malloc; lia).
  rewrite Hzero, row_sum_zero_vector. real_ops. ring.
Qed.

(** The cells a pass computes, in exact arithmetic. *)
Lemma body_cells sys iter w :
  system_wf sys → residual_invariant sys w →
  (length (body_x (sys_A sys) (sys_n sys) iter w) = Z.to_nat (sys_n sys)
   ∧ length (body_r (sys_A sys) (sys_n sys) iter w) = Z.to_nat (sys_n sys)
   ∧ length (body_p (sys_n sys) iter w) = Z.to_nat (sys_n sys)
   ∧ length (body_v (sys_A sys) (sys_n sys) iter w) = Z.to_nat (sys_n sys)
   ∧ length (body_s (sys_A sys) (sys_n sys) iter w) = Z.to_nat (sys_n sys)
   ∧ length (body_t (sys_A sys) (sys_n sys) iter w) = Z.to_nat (sys_n sys))
  ∧ (∀ i, (0 ≤ i < sys_n sys)%Z →
       rd (body_s (sys_A sys) (sys_n sys) iter w) i
       = rd (sys_b sys) i
         - row_sum (sys_A sys)
             (vector_axpy (body_alpha (sys_A sys) (sys_n sys) iter w)
                          (body_p (sys_n sys) iter w) (w_x w) (sys_n sys)) i)
  ∧ (∀ i, (0 ≤ i < sys_n sys)%Z →
       rd (body_r (sys_A sys) (sys_n sys) iter w) i
       = rd (sys_b sys) i - row_sum (sys_A sys) (body_x (sys_A sys) (sys_n sys) iter w) i).
Proof.
  intros (Hinv & HA & Hb & Hx0) ((Hlx & Hlr & Hlp & Hlv & Hls & Hlt) & Hres).
  set (A := sys_A sys) in *. set (n := sys_n sys) in *.
  set (p' := body_p n iter w). set (alpha := body_alpha A n iter w).
  set (omega := body_omega A n iter w).
  assert (length p' = Z.to_nat n) as Hlp' by (unfold p'; by rewrite length_body_p).
  assert (length (body_v A n iter w) = Z.to_nat n) as Hlv'
    by (unfold body_v; by rewrite length_matvec_csr).
  assert (length (body_s A n iter w) = Z.to_nat n) as Hls'
    by (unfold body_s; by rewrite length_vector_axpby).
  assert (length (body_t A n iter w) = Z.to_nat n) as Hlt'
    by (unfold body_t; by rewrite length_matvec_csr).
  assert (length (body_r A n iter w) = Z.to_nat n) as Hlr'
    by (unfold body_r; by rewrite length_vector_axpby).
  assert (length (body_x A n iter w) = Z.to_nat n) as Hlx'
    by (unfold body_x; by rewrite !length_vector_axpy).
  assert (∀ i, (0 ≤ i < n)%Z → rd (body_v A n iter w) i = row_sum A p' i) as Hv.
  { intros i Hi. unfold body_v. apply rd_matvec_csr; [|lia]. by rewrite HA. }
  assert (∀ i, (0 ≤ i < n)%Z →
            rd (body_s A n iter w) i = rd (w_r w) i - alpha * row_sum A p' i) as Hs.
  { intros i Hi. unfold body_s. rewrite rd_vector_axpby by lia.
    rewrite decide_True by lia. rewrite Hv by done. fold alpha. real_ops. ring. }
  assert (∀ i, (0 ≤ i < n)%Z →
            rd (body_t A n iter w) i = row_sum A (body_s A n iter w) i) as Ht.
  { intros i Hi. unfold body_t. apply rd_matvec_csr; [|lia]. by rewrite HA. }
  assert (∀ i, (0 ≤ i < n)%Z →
            rd (vector_axpy alpha p' (w_x w) n) i = rd (w_x w) i + alpha * rd p' i) as Hx1.
  { intros i Hi. rewrite rd_vector_axpy by lia. by rewrite decide_True by lia. }
  assert (∀ i, (0 ≤ i < n)%Z →
            rd (body_x A n iter w) i
            = rd (w_x w) i + alpha * rd p' i + omega * rd (body_s A n iter w) i) as Hx2.
  { intros i Hi. unfold body_x. rewrite rd_vector_axpy by (rewrite ?length_vector_axpy; lia).
    rewrite decide_True by lia. fold p' alpha omega. rewrite Hx1 by done. done. }
  assert (∀ i, (0 ≤ i < n)%Z →
            row_sum A (vector_axpy alpha p' (w_x w) n) i
            = row_sum A (w_x w) i + alpha * row_sum A p' i) as HAx1.
  { intros i Hi.
    rewrite (row_sum_linear A (w_x w) p' p' _ alpha 0) by (rewrite ?HA; try done;
      intros q Hq; rewrite Hx1 by done; ring).
    ring. }
  assert (∀ i, (0 ≤ i < n)%Z →
            row_sum A (body_x A n iter w) i
            = row_sum A (w_x w) i + alpha * row_sum A p' i
              + omega * row_sum A (body_s A n iter w) i) as HAx2.
  { intros i Hi. apply row_sum_linear; rewrite ?HA; done. }
  split; [done|]. split.
  - intros i Hi. fold p' alpha. rewrite Hs, HAx1, Hres by done. real_ops. ring.
  - intros i Hi. unfold body_r. rewrite rd_vector_axpby by lia.
    rewrite decide_True by lia. fold omega.
    rewrite Ht, Hs, HAx2, Hres by done. real_ops. ring.
Qed.

Lemma serial_body_residual_invariant sys bnorm tol iter w w' :
  system_wf sys → residual_invariant sys w →
  serial_body (sys_A sys) (sys_n sys) bnorm tol iter w = Next w' →
  residual_invariant sys w'.
Proof.
  intros Hwf Hinv Hbody.
  destruct (body_cells sys iter w Hwf Hinv) as ((Hlx & Hlr & Hlp & Hlv & Hls & Hlt) & _ & Hr).
  destruct (serial_body_next _ _ _ _ _ _ _ Hbody) as (Ex & Er & Ep & Ev & Es & Et).
  unfold residual_invariant. by rewrite Ex, Er, Ep, Ev, Es, Et.
Qed.

Lemma serial_reach_residual_invariant sys tol (k : nat) w :
  system_wf sys →
  sys_x sys = replicate (Z.to_nat (sys_n sys)) 0 →
  serial_at sys tol k = Some w →
  residual_invariant sys w.
Proof.
  intros Hwf Hzero. unfold serial_at. revert w.
  induction k as [|k IH]; intros w Hreach; simpl in Hreach.
  - injection Hreach as <-. by apply serial_init_residual_invariant.
  - destruct (serial_reach _ _ _ _ k _) as [w1|]; [|done].
    destruct (serial_body _ _ _ _ (Z.of_nat k) w1) as [w2|] eqn:Hbody; [|done].
    injection Hreach as <-.
    eapply serial_body_residual_invariant; [done | by apply IH | done].
Qed.


(** X20: in exact arithmetic, when the solve starts from [x = 0] and a
    convergence check passes, the [x] returned has a residual [b - A x] whose
    norm, as [verify_solution] prints it, is below [tol] relative to [bnorm];
    this holds also when the second check passes at the last loop index and
    the call returns the failure sentinel. *)
Theorem converged_residual_below_tol sys (max_iter : Z) tol (k : nat) w :
  system_wf sys →
  sys_x sys = replicate (Z.to_nat (sys_n sys)) 0 →
  serial_at sys tol k = Some w →
  (Z.of_nat k < max_iter)%Z →
  rho_breakdown (sys_n sys) w = false →
  first_check (sys_A sys) (sys_n sys) (serial_bnorm sys) tol (Z.of_nat k) w = true
  ∨ (first_check (sys_A sys) (sys_n sys) (serial_bnorm sys) tol (Z.of_nat k) w = false
     ∧ second_check (sys_A sys) (sys_n sys) (serial_bnorm sys) tol (Z.of_nat k) w = true) →
  Rltb (verify_solution (snd (bicgstab_serial sys max_iter tol)) / serial_bnorm sys) tol
  = true.
Proof.
  intros Hwf Hzero Hreach Hk Hrho Hcheck.
  pose proof (serial_reach_residual_invariant sys tol k w Hwf Hzero Hreach) as Hinv.
  destruct (body_cells sys (Z.of_nat k) w Hwf Hinv) as (_ & Hs & Hr).
  destruct Hwf as (_ & HA & _).
  destruct Hcheck as [H1|[H1 H2]].
  - rewrite (first_check_returns_index sys max_iter tol k w) by done. cbn [snd].
    rewrite (verify_solution_norm (with_x sys _)
               (body_s (sys_A sys) (sys_n sys) (Z.of_nat k) w) HA Hs).
    exact H1.
  - rewrite (serial_second_check_result sys max_iter tol k w) by done. cbn [snd].
    rewrite (verify_solution_norm (with_x sys _)
               (body_r (sys_A sys) (sys_n sys) (Z.of_nat k) w) HA Hr).
    exact H2.
Qed.
End exact_residual.


(** ** [verify_solution] and the grid matrix in exact arithmetic *)

Section exact_verify.
Implicit Types (A : CSRMatrix R) (sys : FEMSystem R).
Local Open Scope R_scope.

Lemma sum_squares_zero (d : Z → R) (l : list Z) (s0 : R) :
  0 <= s0 →
  0 <= foldl (λ s k, s + d k * d k) s0 l
  ∧ (foldl (λ s k, s + d k * d k) s0 l = 0 ↔ s0 = 0 ∧ ∀ k, k ∈ l → d k = 0).
Proof.
  revert s0. induction l as [|k l IH]; intros s0 Hs0; simpl.
  - split; [done|]. split; [intros ->; split; [done|] | by intros [-> _]].
    intros k Hk. by apply elem_of_nil in Hk.
  - destruct (IH (s0 + d k * d k)) as [Hpos Hiff]; [nra|].
    split; [done|]. rewrite Hiff. split.
    + intros [Hsum Hrest]. assert (s0 = 0 ∧ d k = 0) as [-> Hk] by nra.
      split; [done|]. intros k' Hk'. apply elem_of_cons in Hk' as [->|Hk']; auto.
    + intros [-> Hall]. split.
      * rewrite (Hall k) by left. ring.
      * intros k' Hk'. apply Hall. by right.
Qed.

(** X21: in exact arithmetic the value [verify_solution] prints is never
    negative, and it is zero exactly when [x] solves the system: [A x = b] in
    every row. *)
Theorem verify_solution_zero_iff sys :
  csr_n (sys_A sys) = sys_n sys →
  0 <= verify_solution sys
  ∧ (verify_solution sys = 0
     ↔ ∀ i, (0 ≤ i < sys_n sys)%Z → row_sum (sys_A sys) (sys_x sys) i = rd (sys_b sys) i).
Proof.
  intros HA. unfold verify_solution. real_ops.
  set (Ax := matvec_csr (sys_A sys) (sys_x sys) (malloc (sys_n sys))).
  destruct (sum_squares_zero (λ i, rd (sys_b sys) i - rd Ax i) (seqZ 0 (sys_n sys)) 0)
    as [Hpos Hiff]; [lra|].
  split; [apply sqrt_pos|].
  assert (∀ i, (0 ≤ i < sys_n sys)%Z → rd Ax i = row_sum (sys_A sys) (sys_x sys) i) as HAx.
  { intros i Hi. unfold Ax. apply rd_matvec_csr; rewrite ?length_malloc, ?HA; (done || lia). }
  split.
  - intros Hsqrt. apply sqrt_eq_0 in Hsqrt; [|done].
    apply Hiff in Hsqrt as [_ Hall]. intros i Hi.
    specialize (Hall i). rewrite elem_of_seqZ in Hall.
    rewrite <- HAx by done. specialize (Hall ltac:(lia)). simpl in Hall. lra.
  - intros Hsol.
    replace (foldl _ 0 _) with 0; [apply sqrt_0|].
    symmetry. apply Hiff. split; [done|].
    intros k Hk. apply elem_of_seqZ in Hk. rewrite HAx, Hsol by lia. lra.
Qed.

End exact_verify.

(** ** [run_benchmark] *)

Section benchmark_facts.
Context {D : Type} `{!Arith D} `{!MainArith D}.
Implicit Types (sys : FEMSystem D) (x : list D).

Lemma memset_zero_all x n :
  length x = Z.to_nat n → memset_zero x n = replicate (Z.to_nat n) d_zero.
Proof.
  intros Hlen. unfold memset_zero.
  rewrite (foldl_wr_overwrites (λ _, d_zero)) by done.
  apply list_eq_rd.
  - by rewrite length_fmap, length_seqZ, length_replicate.
  - intros i Hi Hlt. rewrite length_fmap, length_seqZ in Hlt.
    rewrite rd_fmap_seqZ by lia. by rewrite rd_replicate_zero.
Qed.

(** Resetting [x] after a solve gives back the system as it was built. *)
Lemma reset_after_solve (sys0 sys : FEMSystem D) :
  sys_x sys0 = replicate (Z.to_nat (sys_n sys0)) d_zero →
  sys_A sys = sys_A sys0 → sys_b sys = sys_b sys0 → sys_n sys = sys_n sys0 →
  length (sys_x sys) = length (sys_x sys0) →
  with_x sys (memset_zero (sys_x sys) (sys_n sys)) = sys0.
Proof.
  intros Hx0 HA Hb Hn Hlen. unfold with_x.
  rewrite memset_zero_all by (rewrite Hlen, Hx0, length_replicate, Hn; done).
  rewrite HA, Hb, Hn, <- Hx0. by destruct sys0.
Qed.

Lemma reset_after_serial sys0 max_iter tol :
  sys_x sys0 = replicate (Z.to_nat (sys_n sys0)) d_zero →
  with_x (snd (bicgstab_serial sys0 max_iter tol))
         (memset_zero (sys_x (snd (bicgstab_serial sys0 max_iter tol)))
                      (sys_n (snd (bicgstab_serial sys0 max_iter tol)))) = sys0.
Proof.
  intros Hx0. apply reset_after_solve; try done;
    rewrite bicgstab_serial_unfold; simpl; try done.
  apply serial_loop_length_x.
Qed.

Lemma reset_after_parallel omp sys0 max_iter tol num_threads :
  sys_x sys0 = replicate (Z.to_nat (sys_n sys0)) d_zero →
  with_x (snd (bicgstab_parallel omp sys0 max_iter tol num_threads))
         (memset_zero (sys_x (snd (bicgstab_parallel omp sys0 max_iter tol num_threads)))
                      (sys_n (snd (bicgstab_parallel omp sys0 max_iter tol num_threads))))
  = sys0.
Proof.
  intros Hx0. apply reset_after_solve; try done;
    rewrite bicgstab_parallel_unfold; simpl; try done.
  apply parallel_loop_length_x.
Qed.

(** The runs of [run_benchmark], each on the system as it was built. *)
Lemma run_benchmark_unfold omp nx ny :
  run_benchmark omp nx ny
  = {| iter_serial := fst (bicgstab_serial (create_fem_system nx ny) 10000 d_tol);
       serial_residual :=
         if 0 <? fst (bicgstab_serial (create_fem_system nx ny) 10000 d_tol)
         then Some (verify_solution (snd (bicgstab_serial (create_fem_system nx ny)
                                                          10000 d_tol)))
         else None;
       parallel_runs :=
         (λ num_threads,
            (num_threads,
             fst (bicgstab_parallel omp (create_fem_system nx ny) 10000 d_tol num_threads)))
         <$> thread_counts |}.
Proof.
  set (sys0 := create_fem_system (D:=D) nx ny).
  assert (sys_x sys0 = replicate (Z.to_nat (sys_n sys0)) d_zero) as Hx0 by done.
  unfold run_benchmark. fold sys0.
  rewrite (reset_after_solve sys0 sys0) by done.
  pose proof (reset_after_serial sys0 10000 d_tol Hx0) as Hs.
  destruct (bicgstab_serial sys0 10000 d_tol) as [it1 sys1]. simpl in Hs.
  unfold thread_counts. simpl. rewrite Hs.
  pose proof (reset_after_parallel omp sys0 10000 d_tol 2 Hx0) as H2.
  destruct (bicgstab_parallel omp sys0 10000 d_tol 2) as [it2 sys2]. simpl in H2.
  rewrite H2.
  pose proof (reset_after_parallel omp sys0 10000 d_tol 4 Hx0) as H4.
  destruct (bicgstab_parallel omp sys0 10000 d_tol 4) as [it4 sys4]. simpl in H4.
  rewrite H4.
  by destruct (bicgstab_parallel omp sys0 10000 d_tol 8) as [it8 sys8].
Qed.

(** X23: [run_benchmark] resets [x] before every solve and a solve changes
    nothing else, so the serial solve and the three parallel solves each run
    on the system as [create_fem_system] built it, whatever the solves before
    left in [x]. *)
Theorem run_benchmark_solves_are_independent omp nx ny :
  iter_serial (run_benchmark omp nx ny)
  = fst (bicgstab_serial (create_fem_system nx ny) 10000 d_tol)
  ∧ serial_residual (run_benchmark omp nx ny)
    = (if 0 <? fst (bicgstab_serial (create_fem_system nx ny) 10000 d_tol)
       then Some (verify_solution (snd (bicgstab_serial (create_fem_system nx ny)
                                                        10000 d_tol)))
       else None)
  ∧ parallel_runs (run_benchmark omp nx ny)
    = (λ num_threads,
         (num_threads,
          fst (bicgstab_parallel omp (create_fem_system nx ny) 10000 d_tol num_threads)))
      <$> thread_counts.
Proof. by rewrite run_benchmark_unfold. Qed.

Lemma bicgstab_parallel_serial `{!ExactArith D} omp sys max_iter tol num_threads :
  team_valid (omp num_threads) →
  bicgstab_parallel omp sys max_iter tol num_threads = bicgstab_serial sys max_iter tol.
Proof.
  intros Hteam. rewrite bicgstab_parallel_unfold, bicgstab_serial_unfold.
  by rewrite parallel_loop_serial, parallel_bnorm_serial, parallel_init_serial.
Qed.

(** X24: in exact arithmetic, with a runtime that runs every iteration of a
    parallel loop exactly once, the three parallel solves of [run_benchmark]
    return the count of the serial solve. *)
Theorem run_benchmark_counts_agree `{!ExactArith D} omp nx ny :
  (∀ num_threads, num_threads ∈ thread_counts → team_valid (omp num_threads)) →
  parallel_runs (run_benchmark omp nx ny)
  = (λ num_threads, (num_threads, iter_serial (run_benchmark omp nx ny))) <$> thread_counts.
Proof.
  intros Hteams. rewrite run_benchmark_unfold. simpl.
  rewrite !bicgstab_parallel_serial by (apply Hteams; unfold thread_counts;
    rewrite !elem_of_cons; auto).
  done.
Qed.

(** X25: [run_benchmark] takes a count of 0 for a failure: when the serial
    solve passes its first convergence check in the first pass, it returns 0,
    and [run_benchmark] prints neither the time nor the residual of that
    solve. *)
Theorem run_benchmark_skips_count_zero omp nx ny :
  rho_breakdown (sys_n (create_fem_system (D:=D) nx ny))
                (serial_init (create_fem_system nx ny)) = false →
  first_check (sys_A (create_fem_system nx ny)) (sys_n (create_fem_system nx ny))
              (serial_bnorm (create_fem_system nx ny)) d_tol (Z.of_nat 0)
              (serial_init (create_fem_system nx ny)) = true →
  iter_serial (run_benchmark omp nx ny) = 0
  ∧ serial_residual (run_benchmark omp nx ny) = None.
Proof.
  intros Hrho H1. rewrite run_benchmark_unfold.
  rewrite (first_check_returns_index (create_fem_system nx ny) 10000 d_tol 0
             (serial_init (create_fem_system nx ny))) by (done || lia).
  done.
Qed.
End benchmark_facts.

(** ** The properties on example inputs *)

(** X1 on [unit_system]: the first check passes at loop index 0 and the call
    returns 0. *)
Lemma first_check_exit_witness :
  bicgstab_serial unit_system 10 tol_1e8 =
  (Z.of_nat 0,
   with_x unit_system
     (vector_axpy (body_alpha (sys_A unit_system) (sys_n unit_system) (Z.of_nat 0)
                              (serial_init unit_system))
                  (body_p (sys_n unit_system) (Z.of_nat 0) (serial_init unit_system))
                  (w_x (serial_init unit_system)) (sys_n unit_system))).
Proof.
  apply (first_check_exit unit_system 10 tol_1e8 0 (serial_init unit_system)).
  - reflexivity.
  - lia.
  - vm_compute. reflexivity.
  - vm_compute. reflexivity.
Defined.

(** X2 on [sym2_system] with [max_iter = 1]: the second check passes at the
    last loop index. *)
Lemma second_check_exit_witness :
  bicgstab_serial sym2_system 1 tol_1e8
  = (if decide (Z.of_nat 0 + 1 = 1) then failure_sentinel else Z.of_nat 0 + 1,
     with_x sym2_system
       (body_x (sys_A sym2_system) (sys_n sym2_system) (Z.of_nat 0)
               (serial_init sym2_system))).
Proof.
  apply (second_check_exit sym2_system 1 tol_1e8 0 (serial_init sym2_system)).
  - reflexivity.
  - lia.
  - vm_compute. reflexivity.
  - vm_compute. reflexivity.
  - vm_compute. reflexivity.
Defined.

(** X3 on [rot2_system]: [t = A s] is orthogonal to [s], so [omega] is zero
    in the first pass and the call returns 0. *)
Lemma omega_breakdown_returns_index_witness :
  bicgstab_serial rot2_system 10 tol_1e8
  = (Z.of_nat 0,
     with_x rot2_system
       (body_x (sys_A rot2_system) (sys_n rot2_system) (Z.of_nat 0)
               (serial_init rot2_system))).
Proof.
  apply (omega_breakdown_returns_index rot2_system 10 tol_1e8 0 (serial_init rot2_system)).
  - reflexivity.
  - lia.
  - vm_compute. reflexivity.
  - vm_compute. reflexivity.
  - vm_compute. reflexivity.
  - vm_compute. reflexivity.
Defined.

(** X4 on [colsum3_system] with [max_iter = 1]: the one pass goes on to
    [iter++]. *)
Lemma exhaustion_returns_sentinel_witness :
  bicgstab_serial colsum3_system 1 tol_1e8
  = (failure_sentinel, with_x colsum3_system (w_x colsum3_second_pass)).
Proof.
  apply (exhaustion_returns_sentinel colsum3_system 1 tol_1e8 colsum3_second_pass).
  vm_compute. reflexivity.
Defined.

(** X8 on [sym2_system]: the count 1 that [max_iter = 2] gives is the one
    [max_iter = 5] gives, serially and with two threads. *)
Lemma max_iter_is_only_a_cap_witness :
  bicgstab_serial sym2_system 5 tol_1e8 = bicgstab_serial sym2_system 2 tol_1e8
  ∧ bicgstab_parallel omp_blocks sym2_system 5 tol_1e8 2
    = bicgstab_parallel omp_blocks sym2_system 2 tol_1e8 2.
Proof.
  destruct (max_iter_is_only_a_cap omp_blocks sym2_system 2 5 tol_1e8 2) as [Hs Hp].
  - lia.
  - split.
    + apply Hs. vm_compute. discriminate.
    + apply Hp. vm_compute. discriminate.
Defined.

(** X9 on [sym2_system] with working vectors that hold arbitrary numbers. *)
Lemma scratch_content_is_irrelevant_witness :
  bicgstab_serial_on stale_scratch sym2_system 10 tol_1e8
  = bicgstab_serial sym2_system 10 tol_1e8.
Proof.
  apply (scratch_content_is_irrelevant stale_scratch sym2_system 10 tol_1e8).
  - reflexivity.
  - repeat split; reflexivity.
Defined.


(** X11 on the 3-by-3 grid system with [b] zeroed, with four threads. *)
Lemma parallel_zero_rhs_stops_at_0_witness :
  bicgstab_parallel omp_blocks zero_rhs_system 10000 tol_1e8 4 = (0, zero_rhs_system).
Proof.
  apply (parallel_zero_rhs_stops_at_0 omp_blocks zero_rhs_system 10000 tol_1e8 4).
  - apply omp_blocks_valid.
  - lia.
  - vm_compute. reflexivity.
Defined.



(** X13 at the corner [(0, 2)] of the 3-by-3 grid, which gets type 3. *)
Lemma get_boundary_type_classifies_witness :
  0 ≤ get_boundary_type 0 2 3 3 ≤ 4
  ∧ (get_boundary_type 0 2 3 3 = 0 ↔ 0 < 0 < 3 - 1 ∧ 0 < 2 < 3 - 1)
  ∧ (get_boundary_type 0 2 3 3 = 1 ↔ 2 = 0)
  ∧ (get_boundary_type 0 2 3 3 = 2 ↔ 2 ≠ 0 ∧ 0 = 3 - 1)
  ∧ (get_boundary_type 0 2 3 3 = 3 ↔ 2 ≠ 0 ∧ 0 ≠ 3 - 1 ∧ 2 = 3 - 1)
  ∧ (get_boundary_type 0 2 3 3 = 4 ↔ 2 ≠ 0 ∧ 0 ≠ 3 - 1 ∧ 2 ≠ 3 - 1 ∧ 0 = 0).
Proof. apply (get_boundary_type_classifies 3 3 0 2); lia. Defined.





(** [real_unit_system] is well formed, its [rho] does not break down in the
    first pass, and its first convergence check passes there. *)
Lemma real_unit_system_wf : system_wf real_unit_system.
Proof.
  unfold system_wf, csr_invariant. simpl.
  repeat split; try done;
    repeat match goal with
           | H : 0 ≤ ?i < 1 |- _ => assert (i = 0) as -> by lia; clear H
           | |- ∀ i, _ => intros ? ?
           end; by vm_compute.
Qed.

Lemma real_unit_system_rho :
  rho_breakdown (sys_n real_unit_system) (serial_init real_unit_system) = false.
Proof.
  unfold rho_breakdown, body_rho.
  assert (dot_product (w_r0 (serial_init real_unit_system)) (w_r (serial_init real_unit_system))
           (sys_n real_unit_system) = (0 + 1 * 1)%R) as -> by reflexivity.
  real_ops. unfold Rltb. destruct (Rlt_dec _ _) as [Hlt|]; [|done].
  exfalso. change (@d_tiny R real_arith) with (/ 10 ^ 30)%R in Hlt.
  assert (Rabs (0 + 1 * 1) = 1)%R as Habs by (rewrite Rabs_pos_eq; lra).
  rewrite Habs in Hlt.
  assert (1 < 10 ^ 30)%R as Hbig by (apply Rlt_pow_R1; [lra | lia]).
  assert (/ 10 ^ 30 < / 1)%R as Hsmall by (apply Rinv_lt_contravar; lra).
  rewrite Rinv_1 in Hsmall. lra.
Qed.

Lemma real_unit_system_first_check :
  first_check (sys_A real_unit_system) (sys_n real_unit_system)
              (serial_bnorm real_unit_system) (/ 10 ^ 8)%R (Z.of_nat 0)
              (serial_init real_unit_system) = true.
Proof.
  unfold first_check.
  assert (body_s (sys_A real_unit_system) (sys_n real_unit_system) (Z.of_nat 0)
                 (serial_init real_unit_system)
          = [(1 * 1 + - ((0 + 1 * 1) / (0 + 1 * (0 + 1 * 1))) * (0 + 1 * 1))%R]) as ->
    by reflexivity.
  assert ((1 * 1 + - ((0 + 1 * 1) / (0 + 1 * (0 + 1 * 1))) * (0 + 1 * 1))%R = 0%R) as ->
    by (field; lra).
  assert (vector_norm [0%R] (sys_n real_unit_system) = R_sqrt.sqrt (0 + 0 * 0)%R) as ->
    by reflexivity.
  replace (0 + 0 * 0)%R with 0%R by ring. rewrite sqrt_0.
  real_ops. unfold Rltb, Rdiv. rewrite Rmult_0_l.
  destruct (Rlt_dec _ _) as [|Hn]; [done|]. destruct Hn.
  apply Rinv_0_lt_compat, pow_lt. lra.
Qed.


(** X20 on [real_unit_system]: the first check passes at loop index 0. *)
Lemma converged_residual_below_tol_witness :
  Rltb (verify_solution (snd (bicgstab_serial real_unit_system 10 (/ 10 ^ 8)%R))
        / serial_bnorm real_unit_system) (/ 10 ^ 8)%R = true.
Proof.
  apply (converged_residual_below_tol real_unit_system 10 (/ 10 ^ 8)%R 0
           (serial_init real_unit_system)).
  - exact real_unit_system_wf.
  - reflexivity.
  - reflexivity.
  - lia.
  - exact real_unit_system_rho.
  - left. exact real_unit_system_first_check.
Defined.

(** X21 on [real_unit_system]. *)
Lemma verify_solution_zero_iff_witness :
  (0 <= verify_solution real_unit_system)%R
  ∧ (verify_solution real_unit_system = 0%R
     ↔ ∀ i, 0 ≤ i < sys_n real_unit_system →
         row_sum (sys_A real_unit_system) (sys_x real_unit_system) i
         = rd (sys_b real_unit_system) i).
Proof. apply (verify_solution_zero_iff real_unit_system). reflexivity. Defined.

(** X24 on the 3-by-3 grid in exact arithmetic, with the block runtime. *)
Lemma run_benchmark_counts_agree_witness :
  parallel_runs (run_benchmark (D:=R) omp_blocks 3 3)
  = (λ num_threads, (num_threads, iter_serial (run_benchmark (D:=R) omp_blocks 3 3)))
    <$> thread_counts.
Proof.
  apply (run_benchmark_counts_agree (D:=R) omp_blocks 3 3).
  intros num_threads _. apply omp_blocks_valid.
Defined.

(** X25 on the 2-by-2 grid in binary64: every node is a boundary node, the
    matrix is the identity, and the first pass finds the solution [x = b]. *)
Lemma run_benchmark_skips_count_zero_witness :
  iter_serial (run_benchmark (D:=float) omp_blocks 2 2) = 0
  ∧ serial_residual (run_benchmark (D:=float) omp_blocks 2 2) = None.
Proof.
  apply (run_benchmark_skips_count_zero (D:=float) omp_blocks 2 2).
  - vm_compute. reflexivity.
  - vm_compute. reflexivity.
Defined.
